(** * cluster/sync/task.go: the synchronization task

    A shallow embedding of [task.Run], [task.SetSendFunc], [task.sendSync]
    and [task.validateHeaderList].

    The Go code talks to collaborators it does not implement: the
    [blockchain] interface and the closures stored in the [task] struct.
    They are modelled as functions over an abstract world state [W] that
    return their result and the next state.  Every call [Run] makes to one
    of them is recorded, in program order, in a list of events, so that
    "was not invoked" and "before any block is fetched" are statements
    about that list.

    Two loops of [Run] need not end (the peer may serve headers for ever,
    and a [batchSize] of zero never shortens the hash list), so they take
    fuel; the statements below that say [Run] returns hold for every
    amount of fuel, or for every amount above the one turn they look at.

    Interface values on which the code calls a method without a nil check
    (the head of the chain, the headers of a batch, the blocks of a
    response, the target header) are taken to be non-nil; the two places
    where the code does test for nil, the ancestor and [blk.IHeader()],
    are [option]s. *)

From Stdlib Require Import ZArith List String Bool Lia.
Import ListNotations.
Local Open Scope Z_scope.

(** ** Data *)

(** [common.Hash] is a 32-byte array compared with [==]; it is kept as the
    256-bit number it spells. *)
Definition common_Hash := Z.

(** [uint64] values and their wrap-around. *)
Definition u64 (z : Z) : Z := z mod 2 ^ 64.
Definition u64_add (a b : Z) : Z := u64 (a + b).
Definition u64_sub (a b : Z) : Z := u64 (a - b).

(** [types.IHeader]: the three methods the task calls on a header. *)
Record IHeader := mkHeader {
  hNumber : Z;
  hHash : common_Hash;
  hParentHash : common_Hash
}.

Definition NumberU64 (h : IHeader) : Z := u64 (hNumber h).
Definition Hash (h : IHeader) : common_Hash := hHash h.
Definition GetParentHash (h : IHeader) : common_Hash := hParentHash h.

(** [types.IBlock]: [NumberU64()] and [IHeader()]; the latter may be a nil
    interface value, which is what ends the loop of [Run]. *)
Record IBlock := mkBlock {
  bNumber : Z;
  bHeader : option IHeader
}.

Definition BlockNumberU64 (b : IBlock) : Z := u64 (bNumber b).

Record Progress := mkProgress {
  CurrentBlock : Z;
  HighestBlock : Z
}.

Record SyncingResult := mkSyncingResult {
  Syncing : bool;
  Status : Progress
}.

(** Go [error] values: the four the task builds itself, and whatever a
    collaborator returns. *)
Inductive error :=
| ErrDescendingOrder
| ErrNotLinked
| ErrUnmatchedLength1 (expect actual : Z)
| ErrUnmatchedLength2 (expect actual : Z) (first : common_Hash)
| ErrExternal (msg : string).

(** The errors the task raises against a misbehaving peer. *)
Definition protocolViolation (e : error) : bool :=
  match e with
  | ErrDescendingOrder | ErrNotLinked
  | ErrUnmatchedLength1 _ _ | ErrUnmatchedLength2 _ _ _ => true
  | ErrExternal _ => false
  end.

(** One entry per call that leaves the task. *)
Inductive Event :=
| EvNeedSkip
| EvCurrentHeader
| EvFindAncestor
| EvGetHeaders (from : IHeader)
| EvValidateSeal (h : IHeader) (strict : bool)
| EvGetBlocks (hashes : list common_Hash)
| EvSyncBlock (b : IBlock)
| EvAddBlock (b : IBlock)
| EvSend (r : SyncingResult).

(** How a Go function body can stop before its last statement. *)
Inductive exit :=
| Return (err : option error)
| Panic
| OutOfFuel.

(** ** The monad: world state, early exit, event log *)

Section Monad.
Context {W : Type}.

Definition M (A : Type) : Type := W -> (A + exit) * W * list Event.

Definition ret {A} (a : A) : M A := fun w => (inl a, w, []).

Definition bind {A B} (m : M A) (k : A -> M B) : M B :=
  fun w =>
    match m w with
    | (inl a, w1, t1) =>
        match k a w1 with
        | (r, w2, t2) => (r, w2, t1 ++ t2)
        end
    | (inr e, w1, t1) => (inr e, w1, t1)
    end.

Definition leave {A} (e : exit) : M A := fun w => (inr e, w, []).

(** A call to a collaborator [f], logged as [ev]. *)
Definition call {A} (ev : Event) (f : W -> A * W) : M A :=
  fun w => let '(a, w1) := f w in (inl a, w1, [ev]).
End Monad.

Arguments M : clear implicits.

Declare Scope go_scope.
Delimit Scope go_scope with go.
Notation "x <- c ;; k" := (bind c (fun x => k))
  (at level 61, c at next level, right associativity) : go_scope.
Notation "c ;;; k" := (bind c (fun _ => k))
  (at level 61, right associativity) : go_scope.
Local Open Scope go_scope.

(** ** The [blockchain] interface and the [task] struct *)

Record blockchain (W : Type) := mkBlockchain {
  CurrentHeader : W -> IHeader * W;
  AddBlock : IBlock -> W -> option error * W;
  (* bc.Validator().ValidateSeal(h, strict) *)
  ValidateSeal : IHeader -> bool -> W -> option error * W
}.
Arguments CurrentHeader {W}.
Arguments AddBlock {W}.
Arguments ValidateSeal {W}.

Record task (W : Type) := mkTask {
  name : string;
  maxSyncStaleness : Z;
  batchSize : Z;
  header : IHeader;
  send : option (SyncingResult -> W -> Z * W);
  findAncestor : blockchain W -> W -> (option IHeader * option error) * W;
  getHeaders : IHeader -> W -> (list IHeader * option error) * W;
  getBlocks : list common_Hash -> W -> (list IBlock * option error) * W;
  syncBlock : option (blockchain W -> IBlock -> W -> option error * W);
  needSkip : blockchain W -> W -> bool * W
}.
Arguments name {W}.
Arguments maxSyncStaleness {W}.
Arguments batchSize {W}.
Arguments header {W}.
Arguments send {W}.
Arguments findAncestor {W}.
Arguments getHeaders {W}.
Arguments getBlocks {W}.
Arguments syncBlock {W}.
Arguments needSkip {W}.

Definition len {A} (l : list A) : Z := Z.of_nat (List.length l).

Section Task.
Context {W : Type}.

(** [func (t *task) SetSendFunc(send ...)]: the argument may be nil. *)
Definition SetSendFunc (t : task W)
    (f : option (SyncingResult -> W -> Z * W)) : task W :=
  if (String.prefix "shard-"%string (name t) &&
      match send t with None => true | Some _ => false end)%bool
  then mkTask W (name t) (maxSyncStaleness t) (batchSize t) (header t) f
              (findAncestor t) (getHeaders t) (getBlocks t) (syncBlock t)
              (needSkip t)
  else t.

(** [func (t *task) sendSync(syncing bool, curr, best uint64)] *)
Definition sendSync (t : task W) (syncing : bool) (curr best : Z) : M W unit :=
  match send t with
  | Some f =>
      let r := mkSyncingResult syncing (mkProgress curr best) in
      _ <- call (EvSend r) (f r) ;; ret tt
  | None => ret tt
  end.

(** The two comparisons made on a header and its predecessor. *)
Definition checkLink (prev h : IHeader) : option error :=
  if negb (NumberU64 h =? u64_add (NumberU64 prev) 1) then Some ErrDescendingOrder
  else if negb (Hash prev =? GetParentHash h) then Some ErrNotLinked
  else None.

(** The [for _, h := range headers] loop of [validateHeaderList], with the
    loop variable [prev] as an argument. *)
Fixpoint validateFrom (bc : blockchain W) (prev : option IHeader)
    (headers : list IHeader) : M W (option error) :=
  match headers with
  | [] => ret None
  | h :: rest =>
      match match prev with Some p => checkLink p h | None => None end with
      | Some e => ret (Some e)
      | None =>
          r <- call (EvValidateSeal h false) (ValidateSeal bc h false) ;;
          match r with
          | Some e => ret (Some e)
          | None => validateFrom bc (Some h) rest
          end
      end
  end.

(** [func (t *task) validateHeaderList(bc, headers) error]:
    [var prev types.IHeader] starts out nil. *)
Definition validateHeaderList (t : task W) (bc : blockchain W)
    (headers : list IHeader) : M W (option error) :=
  validateFrom bc None headers.

(** [for _, blk := range blocks { ... }] (lines 114-131): [blocks] is the
    whole response, [todo] what is left of it, [counter] and [ancestor]
    the two variables the loop updates. *)
Fixpoint commitBlocks (t : task W) (bc : blockchain W) (blocks todo : list IBlock)
    (counter : Z) (ancestor : option IHeader) : M W (option IHeader) :=
  match todo with
  | [] => ret ancestor
  | blk :: rest =>
      match syncBlock t with
      | Some hook =>
          e <- call (EvSyncBlock blk) (hook bc blk) ;;
          match e with Some e => leave (Return (Some e)) | None => ret tt end
      | None => ret tt
      end ;;;
      e <- call (EvAddBlock blk) (AddBlock bc blk) ;;
      match e with Some e => leave (Return (Some e)) | None => ret tt end ;;;
      let counter := counter + 1 in
      (if Z.rem counter 100 =? 0
       then sendSync t true (BlockNumberU64 blk)
              (BlockNumberU64 (last blocks blk))
       else ret tt) ;;;
      commitBlocks t bc blocks rest counter (bHeader blk)
  end.

(** [for len(hashlist) > 0 { ... }] (lines 86-132).  A slice expression
    [hashlist[:t.batchSize]] with a negative bound panics. *)
Fixpoint commitLoop (fuel : nat) (t : task W) (bc : blockchain W)
    (hashlist : list common_Hash) (ancestor : option IHeader)
    : M W (option IHeader) :=
  if len hashlist >? 0 then
    match fuel with
    | O => leave OutOfFuel
    | S fuel =>
        if len hashlist >? batchSize t then
          if batchSize t <? 0 then leave Panic else
          r <- call (EvGetBlocks (firstn (Z.to_nat (batchSize t)) hashlist))
                 (getBlocks t (firstn (Z.to_nat (batchSize t)) hashlist)) ;;
          match snd r with
          | Some e => leave (Return (Some e))
          | None =>
              if negb (len (fst r) =? batchSize t)
              then leave (Return (Some
                     (ErrUnmatchedLength1 (batchSize t) (len (fst r)))))
              else
                a <- commitBlocks t bc (fst r) (fst r) 0 ancestor ;;
                commitLoop fuel t bc (skipn (Z.to_nat (batchSize t)) hashlist) a
          end
        else
          r <- call (EvGetBlocks hashlist) (getBlocks t hashlist) ;;
          match snd r with
          | Some e => leave (Return (Some e))
          | None =>
              if negb (len (fst r) =? len hashlist)
              then leave (Return (Some
                     (ErrUnmatchedLength2 (len hashlist) (len (fst r))
                        (hd 0 hashlist))))
              else
                a <- commitBlocks t bc (fst r) (fst r) 0 ancestor ;;
                commitLoop fuel t bc [] a
          end
    end
  else ret ancestor.

(** [for !qkcom.IsNil(ancestor) { ... }] (lines 66-133). *)
Fixpoint fetchLoop (fuel : nat) (t : task W) (bc : blockchain W)
    (ancestor : option IHeader) : M W unit :=
  match ancestor with
  | None => ret tt
  | Some anc =>
      match fuel with
      | O => leave OutOfFuel
      | S fuel' =>
          r <- call (EvGetHeaders anc) (getHeaders t anc) ;;
          match snd r with
          | Some e => leave (Return (Some e))
          | None =>
              let headers := fst r in
              if len headers =? 0 then leave (Return None) else
              v <- validateHeaderList t bc headers ;;
              match v with
              | Some e => leave (Return (Some e))
              | None =>
                  a <- commitLoop (S fuel') t bc (map Hash headers) ancestor ;;
                  fetchLoop fuel' t bc a
              end
          end
      end
  end.

(** Lines 59-138: what [Run] does once the ancestor locator has produced
    a header. *)
Definition syncFrom (fuel : nat) (t : task W) (bc : blockchain W)
    (ancestor : IHeader) : M W unit :=
  cur <- call EvCurrentHeader (CurrentHeader bc) ;;
  if u64_sub (NumberU64 cur) (NumberU64 ancestor) >? u64 (maxSyncStaleness t)
  then
    (* the arguments of logger.Warn read the head once more *)
    _ <- call EvCurrentHeader (CurrentHeader bc) ;;
    leave (Return None)
  else
    fetchLoop fuel t bc (Some ancestor) ;;;
    cur <- call EvCurrentHeader (CurrentHeader bc) ;;
    sendSync t false (NumberU64 cur) (NumberU64 (header t)) ;;;
    leave (Return None).

(** [func (t *task) Run(bc blockchain) error] *)
Definition RunM (fuel : nat) (t : task W) (bc : blockchain W) : M W unit :=
  skip <- call EvNeedSkip (needSkip t bc) ;;
  if (skip : bool) then leave (Return None) else
  cur <- call EvCurrentHeader (CurrentHeader bc) ;;
  sendSync t false (NumberU64 cur) (NumberU64 (header t)) ;;;
  r <- call EvFindAncestor (findAncestor t bc) ;;
  match snd r, fst r with
  | Some e, _ => leave (Return (Some e))
  | None, None => leave (Return None)
  | None, Some ancestor => syncFrom fuel t bc ancestor
  end.

(** The outcome of [Run]: how it stopped, the world it left, and the
    calls it made. *)
Definition Run (fuel : nat) (t : task W) (bc : blockchain W) (w : W)
    : exit * W * list Event :=
  match RunM fuel t bc w with
  | (inl _, w', tr) => (Return None, w', tr)
  | (inr e, w', tr) => (e, w', tr)
  end.
End Task.

(** ** Reading an event list *)

Definition isFetch (ev : Event) : bool :=
  match ev with EvGetHeaders _ | EvGetBlocks _ => true | _ => false end.

Definition isCommit (ev : Event) : bool :=
  match ev with EvSyncBlock _ | EvAddBlock _ => true | _ => false end.

Definition isSend (ev : Event) : bool :=
  match ev with EvSend _ => true | _ => false end.

(** The progress events of a run, in the order the sink received them. *)
Fixpoint sent (tr : list Event) : list SyncingResult :=
  match tr with
  | [] => []
  | EvSend r :: tr => r :: sent tr
  | _ :: tr => sent tr
  end.

(** The blocks handed to [AddBlock], in order. *)
Fixpoint added (tr : list Event) : list IBlock :=
  match tr with
  | [] => []
  | EvAddBlock b :: tr => b :: added tr
  | _ :: tr => added tr
  end.

(** ** The steps of [Run] up to the staleness gate *)

Section Prologue.
Context {W : Type}.

(** Lines 47-61 of [Run], up to and including the read of the head that
    the staleness gate compares: the result is the ancestor and that
    head.  [RunM_prologue] below shows that [RunM] is this followed by
    [gate]. *)
Definition prologue (t : task W) (bc : blockchain W) : M W (IHeader * IHeader) :=
  skip <- call EvNeedSkip (needSkip t bc) ;;
  if (skip : bool) then leave (Return None) else
  cur <- call EvCurrentHeader (CurrentHeader bc) ;;
  sendSync t false (NumberU64 cur) (NumberU64 (header t)) ;;;
  r <- call EvFindAncestor (findAncestor t bc) ;;
  match snd r, fst r with
  | Some e, _ => leave (Return (Some e))
  | None, None => leave (Return None)
  | None, Some ancestor =>
      cur <- call EvCurrentHeader (CurrentHeader bc) ;;
      ret (ancestor, cur)
  end.

(** Lines 61-138, after the head has been read. *)
Definition gate (fuel : nat) (t : task W) (bc : blockchain W)
    (p : IHeader * IHeader) : M W unit :=
  let '(ancestor, cur) := p in
  if u64_sub (NumberU64 cur) (NumberU64 ancestor) >? u64 (maxSyncStaleness t)
  then
    _ <- call EvCurrentHeader (CurrentHeader bc) ;;
    leave (Return None)
  else
    fetchLoop fuel t bc (Some ancestor) ;;;
    cur <- call EvCurrentHeader (CurrentHeader bc) ;;
    sendSync t false (NumberU64 cur) (NumberU64 (header t)) ;;;
    leave (Return None).

(** What the start event contributes to the log. *)
Definition startEvents (t : task W) (head : IHeader) : list Event :=
  match send t with
  | Some _ => [EvSend (mkSyncingResult false
                 (mkProgress (NumberU64 head) (NumberU64 (header t))))]
  | None => []
  end.
End Prologue.

(** ** What the claims speak of *)

(** [cur] comes right after [prev]: the next number (a [uint64] sum) and
    the parent hash that names [prev]. *)
Definition extends (prev cur : IHeader) : Prop :=
  NumberU64 cur = u64_add (NumberU64 prev) 1 /\ Hash prev = GetParentHash cur.

(** Every adjacent pair of the batch is in that relation. *)
Definition linked (B : list IHeader) : Prop :=
  forall i p c,
    nth_error B i = Some p -> nth_error B (S i) = Some c -> extends p c.

(** The same with the loop variable [prev] of the validator in front. *)
Definition linkedFrom (prev : option IHeader) (B : list IHeader) : Prop :=
  match prev with
  | Some p => linked (p :: B)
  | None => linked B
  end.

Definition sealEvents (B : list IHeader) : list Event :=
  map (fun h => EvValidateSeal h false) B.

(** The hashes one turn of the inner loop asks the peer for, and the
    hashes it keeps for the next turn. *)
Definition requested {W} (t : task W) (hashlist : list common_Hash) :=
  if len hashlist >? batchSize t
  then firstn (Z.to_nat (batchSize t)) hashlist
  else hashlist.

Definition remaining {W} (t : task W) (hashlist : list common_Hash) :=
  if len hashlist >? batchSize t
  then skipn (Z.to_nat (batchSize t)) hashlist
  else [].

(** The error raised when the peer answers such a request with [actual]
    blocks and that is not the number asked for. *)
Definition unmatched {W} (t : task W) (hashlist : list common_Hash)
    (actual : Z) : error :=
  if len hashlist >? batchSize t
  then ErrUnmatchedLength1 (batchSize t) actual
  else ErrUnmatchedLength2 (len hashlist) actual (hd 0 hashlist).

(** The blocks at positions 100, 200, ... of a response, counted from 1. *)
Definition hundredthFrom (n : nat) (blocks : list IBlock) : list IBlock :=
  map snd
    (filter (fun p => Z.of_nat (fst p) mod 100 =? 0)
       (combine (seq (S n) (List.length blocks)) blocks)).


(** No hook and no [AddBlock] fails on the blocks of [l]. *)
Definition commitsPass {W} (t : task W) (bc : blockchain W) (l : list IBlock)
    : Prop :=
  (forall b w0, In b l -> fst (AddBlock bc b w0) = None) /\
  (forall hook b w0,
     syncBlock t = Some hook -> In b l -> fst (hook bc b w0) = None).

(** The progress events sent after the blocks [picked] of the response
    [blocks]. *)
Definition progressOf (blocks picked : list IBlock) : list SyncingResult :=
  map (fun b => mkSyncingResult true
                  (mkProgress (BlockNumberU64 b)
                     (BlockNumberU64 (last blocks b))))
    picked.

(** ** A scripted peer and chain, for running the model *)

Module Script.

Record world := mkWorld {
  skip : bool;
  head : IHeader;
  common : option IHeader;          (* what the ancestor locator finds *)
  batches : list (list IHeader);    (* header batches still to be served *)
  store : list IBlock               (* the blocks the peer can deliver *)
}.

Definition hdr (n : Z) : IHeader := mkHeader n n (n - 1).
Definition blk (n : Z) : IBlock := mkBlock n (Some (hdr n)).

(** Headers (blocks) numbered [from+1 .. from+n], each linked to the one
    before. *)
Definition hdrs (from : Z) (n : nat) : list IHeader :=
  map (fun i => hdr (from + Z.of_nat i)) (seq 1 n).
Definition blks (from : Z) (n : nat) : list IBlock :=
  map (fun i => blk (from + Z.of_nat i)) (seq 1 n).

(** In the script a header's hash is its number, and so a block is found
    by its number. *)
Definition hasHash (x : common_Hash) (b : IBlock) : bool := bNumber b =? x.

(** A chain whose seal validator refuses the headers with a hash in
    [badSeals] and whose [AddBlock] refuses the blocks with a number in
    [badBlocks]; an added block becomes the head. *)
Definition chainWith (badSeals : list common_Hash) (badBlocks : list Z)
    : blockchain world :=
  mkBlockchain world
    (fun w => (head w, w))
    (fun b w =>
       if existsb (Z.eqb (bNumber b)) badBlocks
       then (Some (ErrExternal "bad block"), w)
       else (None,
             mkWorld (skip w)
               (match bHeader b with Some h => h | None => head w end)
               (common w) (batches w) (store w)))
    (fun h _ w =>
       if existsb (Z.eqb (Hash h)) badSeals
       then (Some (ErrExternal "bad seal"), w)
       else (None, w)).

Definition chain : blockchain world := chainWith [] [].

Definition sink : SyncingResult -> world -> Z * world :=
  fun _ w => (1, w).

(** The peer answers a header request with the next scripted batch, and a
    block request with the blocks of its store that carry the hashes. *)
Definition peerTask (nm : string) (staleness size : Z) (target : IHeader)
    (snd : option (SyncingResult -> world -> Z * world)) : task world :=
  mkTask world nm staleness size target snd
    (fun _ w => ((common w, None), w))
    (fun _ w =>
       match batches w with
       | [] => (([], None), w)
       | b :: bs =>
           ((b, None),
            mkWorld (skip w) (head w) (common w) bs (store w))
       end)
    (fun hs w =>
       ((flat_map (fun x => filter (hasHash x) (store w)) hs, None), w))
    None
    (fun _ w => (skip w, w)).

(** A shard task with a sink: target 8, staleness 100, two blocks per
    block request. *)
Definition shardTask : task world :=
  peerTask "shard-1" 100 2 (hdr 8) (Some sink).

(** The local head is 5 and is the common ancestor; the peer serves
    headers 6..8 and then nothing. *)
Definition behind : world :=
  mkWorld false (hdr 5) (Some (hdr 5)) [hdrs 5 3] (blks 5 3).

(** The same, with the skip predicate reporting true. *)
Definition skipped : world :=
  mkWorld true (hdr 5) (Some (hdr 5)) [hdrs 5 3] (blks 5 3).

(** The local head is 9, the common ancestor 5: a fork four blocks deep. *)
Definition forked : world :=
  mkWorld false (hdr 9) (Some (hdr 5)) [hdrs 5 3] (blks 5 3).

(** The ancestor locator answers with a header above the local head. *)
Definition ahead : world :=
  mkWorld false (hdr 5) (Some (hdr 9)) [hdrs 9 3] (blks 9 3).

(** The local head is the common ancestor and the peer has nothing to
    offer. *)
Definition caughtUp : world :=
  mkWorld false (hdr 5) (Some (hdr 5)) [] [].

(** A second sink, told apart from [sink] by what it returns. *)
Definition sink2 : SyncingResult -> world -> Z * world :=
  fun _ w => (2, w).

(** The peer serves headers 6 and 9. *)
Definition gapAfterBadSeal : world :=
  mkWorld false (hdr 5) (Some (hdr 5)) [[hdr 6; hdr 9]] [blk 6; blk 9].

(** The peer serves headers 6, 7, 9 with good seals. *)
Definition gap : world :=
  mkWorld false (hdr 5) (Some (hdr 5)) [[hdr 6; hdr 7; hdr 9]]
    [blk 6; blk 7; blk 9].

(** The common ancestor is 5 but the peer's batch starts at 9. *)
Definition detached : world :=
  mkWorld false (hdr 5) (Some (hdr 5)) [[hdr 9; hdr 10]] [blk 9; blk 10].

(** The peer has lost block 7. *)
Definition lossy : world :=
  mkWorld false (hdr 5) (Some (hdr 5)) [hdrs 5 3] [blk 6; blk 8].

(** The local head 0 is the common ancestor and the peer serves headers
    [1..n] in one batch. *)
Definition long (n : nat) : world :=
  mkWorld false (hdr 0) (Some (hdr 0)) [hdrs 0 n] (blks 0 n).

(** A shard task with a sink that asks for [size] blocks at a time. *)
Definition bulkTask (size : Z) (target : Z) : task world :=
  peerTask "shard-1" 1000 size (hdr target) (Some sink).

(** The peer's block 6 answers [IHeader()] with nil. *)
Definition headless : world :=
  mkWorld false (hdr 5) (Some (hdr 5)) [[hdr 6]] [mkBlock 6 None].

End Script.


(** ** The rest of the file *)

(** The four constants of task.go (lines 15-20). *)
Definition RootBlockHeaderListLimit : Z := 500.
Definition RootBlockBatchSize : Z := 100.
Definition MinorBlockHeaderListLimit : Z := 100.
Definition MinorBlockBatchSize : Z := 50.

(** The hash lists handed to [getBlocks], in order. *)
Fixpoint requests (tr : list Event) : list (list common_Hash) :=
  match tr with
  | [] => []
  | EvGetBlocks hs :: tr => hs :: requests tr
  | _ :: tr => requests tr
  end.

(** The first non-nil sink of a sequence of [SetSendFunc] arguments. *)
Fixpoint firstAttached {W} (fs : list (option (SyncingResult -> W -> Z * W)))
    : option (SyncingResult -> W -> Z * W) :=
  match fs with
  | [] => None
  | Some f :: _ => Some f
  | None :: fs => firstAttached fs
  end.

(** What the end event (line 136) contributes to the log. *)
Definition endEvents {W} (t : task W) (head : IHeader) : list Event :=
  match send t with
  | Some _ => [EvSend (mkSyncingResult false
                 (mkProgress (NumberU64 head) (NumberU64 (header t))))]
  | None => []
  end.

(** The world in which [Run] calls the ancestor locator: the one left by
    the skip predicate, the read of the head and the start event. *)
Definition atAncestorCall {W} (t : task W) (bc : blockchain W) (w : W) : W :=
  let hw := CurrentHeader bc (snd (needSkip t bc w)) in
  snd (fst (sendSync t false (NumberU64 (fst hw)) (NumberU64 (header t))
              (snd hw))).

(** Lines 116-120 for one block: the hook's verdict, the world it leaves
    and what it adds to the log. *)
Definition hookOutcome {W} (t : task W) (bc : blockchain W) (b : IBlock)
    (w : W) : option error * W * list Event :=
  match syncBlock t with
  | Some hook => (fst (hook bc b w), snd (hook bc b w), [EvSyncBlock b])
  | None => (None, w, [])
  end.

(** Lines 125-128 for one block, [counter] being the count before it. *)
Definition progressStep {W} (t : task W) (blocks : list IBlock) (b : IBlock)
    (counter : Z) : M W unit :=
  if Z.rem (counter + 1) 100 =? 0
  then sendSync t true (BlockNumberU64 b) (BlockNumberU64 (last blocks b))
  else ret tt.


(** The Go function came to a [return]: it neither panicked nor is it
    still running when the fuel is spent. *)
Definition returned {A} (r : A + exit) : Prop :=
  match r with
  | inr Panic | inr OutOfFuel => False
  | _ => True
  end.

(** A peer that answers every block request with one block per hash. *)
Definition answersInFull {W} (t : task W) : Prop :=
  forall hs w0,
    snd (fst (getBlocks t hs w0)) = None /\
    len (fst (fst (getBlocks t hs w0))) = len hs.

(** The seal validator, strictness off, accepts the headers of [B]. *)
Definition sealsPass {W} (bc : blockchain W) (B : list IHeader) : Prop :=
  forall h w0, In h B -> fst (ValidateSeal bc h false w0) = None.

(** The error [validateHeaderList] raises on a pair that is not in the
    relation [extends]: the number is compared first. *)
Definition linkError (prev h : IHeader) : error :=
  if NumberU64 h =? u64_add (NumberU64 prev) 1
  then ErrNotLinked
  else ErrDescendingOrder.

(** Every hook call and every [AddBlock] call succeeds. *)
Definition allCommitsPass {W} (t : task W) (bc : blockchain W) : Prop :=
  forall l, commitsPass t bc l.

(** The progress event of lines 52 and 136 for a head [h], and what a
    task sends for a list of heads: nothing without a sink. *)
Definition statusOf {W} (t : task W) (h : IHeader) : SyncingResult :=
  mkSyncingResult false (mkProgress (NumberU64 h) (NumberU64 (header t))).

Definition statusSent {W} (t : task W) (hs : list IHeader)
    : list SyncingResult :=
  match send t with
  | Some _ => map (statusOf t) hs
  | None => []
  end.

(** A progress event that says syncing=false. *)
Definition notSyncing (r : SyncingResult) : Prop := Syncing r = false.

Module Peer.

(** A peer that makes up the block for every hash it is asked for, and
    serves the scripted header batches of [Script.peerTask]. *)
Definition honestTask (nm : string) (staleness size : Z) (target : IHeader)
    (snd : option (SyncingResult -> Script.world -> Z * Script.world))
    : task Script.world :=
  mkTask Script.world nm staleness size target snd
    (findAncestor (Script.peerTask nm staleness size target snd))
    (getHeaders (Script.peerTask nm staleness size target snd))
    (fun hs w => ((map Script.blk hs, None), w))
    None
    (needSkip (Script.peerTask nm staleness size target snd)).


(** A peer whose ancestor locator, header fetcher or block fetcher fails. *)
Definition failingTask (ancErr hdrErr blkErr : option error)
    : task Script.world :=
  mkTask Script.world "shard-1" 100 2 (Script.hdr 8) (Some Script.sink)
    (fun _ w => ((Script.common w, ancErr), w))
    (fun _ w => ((Script.hdrs 5 3, hdrErr), w))
    (fun hs w => ((map Script.blk hs, blkErr), w))
    None
    (fun _ w => (false, w)).

(** The local head is 5 and the ancestor locator finds nothing. *)
Definition unrelated : Script.world :=
  Script.mkWorld false (Script.hdr 5) None [Script.hdrs 5 3] (Script.blks 5 3).

End Peer.

(** ** The blocks of a response that commit *)

(** What the hook call adds to the log for one block. *)
Definition hookLog {W} (t : task W) (b : IBlock) : list Event :=
  match syncBlock t with
  | Some _ => [EvSyncBlock b]
  | None => []
  end.

(** What lines 125-128 add to the log for the block at position [S i] of
    the response [blocks], positions counted from 1. *)
Definition progressAt {W} (t : task W) (blocks : list IBlock) (i : nat)
    (b : IBlock) : list Event :=
  if Z.of_nat (S i) mod 100 =? 0
  then match send t with
       | Some _ => [EvSend (mkSyncingResult true
                      (mkProgress (BlockNumberU64 b)
                         (BlockNumberU64 (last blocks b))))]
       | None => []
       end
  else [].

(** The loop over a response, on blocks whose hook and [AddBlock] calls
    succeed and without its error exits: for each block of [l] the hook,
    then [AddBlock], then the progress call, each in the world the one
    before left; [i] blocks of the response came before [l].  The result
    is the ancestor, the world and the log. *)
Fixpoint passThrough {W} (t : task W) (bc : blockchain W)
    (blocks : list IBlock) (i : nat) (l : list IBlock) (a : option IHeader)
    (w : W) : option IHeader * W * list Event :=
  match l with
  | [] => (a, w, [])
  | b :: l' =>
      let h := hookOutcome t bc b w in
      let w2 := snd (AddBlock bc b (snd (fst h))) in
      let s := progressStep t blocks b (Z.of_nat i) w2 in
      match passThrough t bc blocks (S i) l' (bHeader b) (snd (fst s)) with
      | (a', w', tr) =>
          (a', w', hookLog t b ++ EvAddBlock b :: progressAt t blocks i b ++ tr)
      end
  end.

(** A progress event that says syncing=true. *)
Definition isSyncing (r : SyncingResult) : Prop := Syncing r = true.
(** ** Unfolding the monad *)

Section MonadLemmas.
Context {W : Type}.

Lemma bind_call {A B} (ev : Event) (f : W -> A * W) (k : A -> M W B) (w : W) :
  bind (call ev f) k w =
  match k (fst (f w)) (snd (f w)) with
  | (r, w2, t2) => (r, w2, ev :: t2)
  end.
Proof.
  unfold bind, call. destruct (f w) as [a w1]; cbn.
  destruct (k a w1) as [[r w2] t2]; reflexivity.
Qed.

Lemma bind_ret {A B} (a : A) (k : A -> M W B) (w : W) :
  bind (ret a) k w = k a w.
Proof.
  unfold bind, ret. destruct (k a w) as [[r w2] t2]; reflexivity.
Qed.

Lemma bind_leave {A B} (e : exit) (k : A -> M W B) (w : W) :
  bind (leave e) k w = (inr e, w, []).
Proof. reflexivity. Qed.

Lemma bind_assoc {A B C} (m : M W A) (k : A -> M W B) (h : B -> M W C) (w : W) :
  bind (bind m k) h w = bind m (fun a => bind (k a) h) w.
Proof.
  unfold bind. destruct (m w) as [[[a|e] w1] t1]; [|reflexivity].
  destruct (k a w1) as [[[b|e] w2] t2]; [|reflexivity].
  destruct (h b w2) as [[r w3] t3]. now rewrite app_assoc.
Qed.

(** Running [m] and then [k] on its result, when [m] is known. *)
Lemma bind_inl {A B} (m : M W A) (k : A -> M W B) w a w1 t1 :
  m w = (inl a, w1, t1) ->
  bind m k w = match k a w1 with (r, w2, t2) => (r, w2, t1 ++ t2) end.
Proof. intros H. unfold bind. now rewrite H. Qed.

Lemma bind_inr {A B} (m : M W A) (k : A -> M W B) w e w1 t1 :
  m w = (inr e, w1, t1) ->
  bind m k w = (inr e, w1, t1).
Proof. intros H. unfold bind. now rewrite H. Qed.

Lemma sendSync_run (t : task W) syncing curr best w :
  exists w',
    sendSync t syncing curr best w =
    (inl tt, w',
     match send t with
     | Some _ => [EvSend (mkSyncingResult syncing (mkProgress curr best))]
     | None => []
     end).
Proof.
  unfold sendSync. destruct (send t) as [f|].
  - rewrite bind_call. cbn. eexists. reflexivity.
  - cbn. eexists. reflexivity.
Qed.

(** [RunM] is [prologue] followed by [gate]. *)
Lemma RunM_prologue fuel (t : task W) bc w :
  RunM fuel t bc w = bind (prologue t bc) (gate fuel t bc) w.
Proof.
  unfold RunM, prologue.
  rewrite bind_assoc, !bind_call.
  destruct (fst (needSkip t bc w)); [reflexivity|].
  rewrite bind_assoc, !bind_call.
  set (w1 := snd (CurrentHeader bc (snd (needSkip t bc w)))).
  set (c := NumberU64 _).
  rewrite bind_assoc.
  destruct (sendSync_run t false c (NumberU64 (header t)) w1) as [w2 Hs].
  rewrite !(bind_inl _ _ _ _ _ _ Hs).
  rewrite bind_assoc, !bind_call.
  destruct (findAncestor t bc w2) as [[a e] w3]; cbn [fst snd].
  destruct e as [e|]; [reflexivity|].
  destruct a as [a|]; [|reflexivity].
  unfold syncFrom. rewrite bind_assoc, !bind_call, bind_ret.
  unfold gate. reflexivity.
Qed.
End MonadLemmas.

(** ** Event lists *)

Lemma sent_app (a b : list Event) : sent (a ++ b) = sent a ++ sent b.
Proof.
  induction a as [|ev a IH]; [reflexivity|].
  destruct ev; cbn; rewrite IH; reflexivity.
Qed.

Lemma added_app (a b : list Event) : added (a ++ b) = added a ++ added b.
Proof.
  induction a as [|ev a IH]; [reflexivity|].
  destruct ev; cbn; rewrite IH; reflexivity.
Qed.

Lemma existsb_false_app {A} (p : A -> bool) (a b : list A) :
  existsb p a = false -> existsb p b = false -> existsb p (a ++ b) = false.
Proof. intros Ha Hb. now rewrite existsb_app, Ha, Hb. Qed.

(** ** [Run] up to the staleness gate *)

Section RunLemmas.
Context {W : Type}.
Variables (t : task W) (bc : blockchain W).

Lemma Run_gate fuel w p w1 tr1 :
  prologue t bc w = (inl p, w1, tr1) ->
  Run fuel t bc w =
  match gate fuel t bc p w1 with
  | (inl _, w2, t2) => (Return None, w2, tr1 ++ t2)
  | (inr e, w2, t2) => (e, w2, tr1 ++ t2)
  end.
Proof.
  intros Hp. unfold Run. rewrite RunM_prologue, (bind_inl _ _ _ _ _ _ Hp).
  destruct (gate fuel t bc p w1) as [[[u|e] w2] t2]; reflexivity.
Qed.

(** The prologue calls the skip predicate, reads the head, emits the start
    event if a sink is attached, calls the ancestor locator and reads the
    head again: nothing else. *)
Lemma prologue_events w p w1 tr1 :
  prologue t bc w = (inl p, w1, tr1) ->
  fst (needSkip t bc w) = false /\
  tr1 = [EvNeedSkip; EvCurrentHeader]
        ++ startEvents t (fst (CurrentHeader bc (snd (needSkip t bc w))))
        ++ [EvFindAncestor; EvCurrentHeader].
Proof.
  unfold prologue. rewrite bind_call.
  destruct (fst (needSkip t bc w)); [discriminate|].
  rewrite bind_call.
  set (h0 := fst (CurrentHeader bc _)). set (w0 := snd (CurrentHeader bc _)).
  destruct (sendSync_run t false (NumberU64 h0) (NumberU64 (header t)) w0)
    as [w2 Hs].
  rewrite (bind_inl _ _ _ _ _ _ Hs), bind_call.
  destruct (findAncestor t bc w2) as [[a e] w3]; cbn [fst snd].
  destruct e as [e|]; [discriminate|].
  destruct a as [a|]; [|discriminate].
  rewrite bind_call. cbn. intros H; inversion H; subst; clear H.
  split; [reflexivity|]. unfold startEvents.
  destruct (send t); reflexivity.
Qed.

Lemma prologue_quiet w p w1 tr1 :
  prologue t bc w = (inl p, w1, tr1) ->
  existsb isFetch tr1 = false /\ existsb isCommit tr1 = false.
Proof.
  intros H. apply prologue_events in H as [_ ->].
  unfold startEvents. destruct (send t); split; reflexivity.
Qed.

(** Past the skip gate the log starts with the skip predicate, the read of
    the head and the start event. *)
Lemma Run_not_skipped fuel w :
  fst (needSkip t bc w) = false ->
  exists rest,
    snd (Run fuel t bc w) =
    [EvNeedSkip; EvCurrentHeader]
    ++ startEvents t (fst (CurrentHeader bc (snd (needSkip t bc w))))
    ++ rest.
Proof.
  intros Hs. unfold Run, RunM. rewrite bind_call, Hs, bind_call.
  set (h0 := fst (CurrentHeader bc _)). set (w0 := snd (CurrentHeader bc _)).
  destruct (sendSync_run t false (NumberU64 h0) (NumberU64 (header t)) w0)
    as [w2 Hsend].
  rewrite (bind_inl _ _ _ _ _ _ Hsend).
  match goal with |- context [bind ?m ?k w2] =>
    destruct (bind m k w2) as [[[u|e] w3] t3] end;
    exists t3; unfold startEvents; destruct (send t); reflexivity.
Qed.
End RunLemmas.

(** ** The skip gate *)

(** C8: when the skip predicate reports true, [Run] returns nil at once:
    its only call is the skip predicate itself, so no progress event is
    sent, the ancestor locator, the fetchers and the sync hook are not
    invoked and [AddBlock] is not called, whatever those functions are. *)
Theorem Run_skip {W} (fuel : nat) (t : task W) (bc : blockchain W) (w : W) :
  fst (needSkip t bc w) = true ->
  Run fuel t bc w = (Return None, snd (needSkip t bc w), [EvNeedSkip]).
Proof.
  intros H. unfold Run, RunM. rewrite bind_call, H. reflexivity.
Qed.

Lemma Run_skip_witness :
  Run 3 Script.shardTask Script.chain Script.skipped
  = (Return None, Script.skipped, [EvNeedSkip]).
Proof. apply (Run_skip 3 Script.shardTask Script.chain Script.skipped). reflexivity. Defined.

(** ** The start event *)

(** C2 (as the code has it): past the skip gate and with a sink attached,
    the first progress event carries syncing=false, the number of the
    chain's current head and the number of the task's target header. *)
Theorem Run_start_event {W} (fuel : nat) (t : task W) (bc : blockchain W) (w : W) :
  fst (needSkip t bc w) = false ->
  send t <> None ->
  exists rest,
    sent (snd (Run fuel t bc w)) =
    mkSyncingResult false
      (mkProgress (NumberU64 (fst (CurrentHeader bc (snd (needSkip t bc w)))))
                  (NumberU64 (header t)))
    :: rest.
Proof.
  intros Hskip Hsend.
  destruct (Run_not_skipped t bc fuel w Hskip) as [rest ->].
  unfold startEvents. destruct (send t); [|contradiction].
  exists (sent rest). cbn. reflexivity.
Qed.

Lemma Run_start_event_witness :
  exists rest,
    sent (snd (Run 3 Script.shardTask Script.chain Script.behind)) =
    mkSyncingResult false (mkProgress 5 8) :: rest.
Proof.
  apply (Run_start_event 3 Script.shardTask Script.chain Script.behind).
  - reflexivity.
  - discriminate.
Defined.

(** C2 as claimed fails: the start event of this run says syncing=false. *)
Lemma start_event_says_not_syncing :
  fst (needSkip Script.shardTask Script.chain Script.behind) = false /\
  send Script.shardTask <> None /\
  hd_error (sent (snd (Run 3 Script.shardTask Script.chain Script.behind)))
    = Some (mkSyncingResult false (mkProgress 5 8)) /\
  hd_error (sent (snd (Run 3 Script.shardTask Script.chain Script.behind)))
    <> Some (mkSyncingResult true (mkProgress 5 8)).
Proof.
  vm_compute. repeat split; discriminate.
Qed.

(** ** Unsigned 64-bit arithmetic *)

Lemma u64_range (z : Z) : 0 <= u64 z < 2 ^ 64.
Proof. unfold u64. apply Z.mod_pos_bound. reflexivity. Qed.

Lemma NumberU64_range (h : IHeader) : 0 <= NumberU64 h < 2 ^ 64.
Proof. apply u64_range. Qed.

Lemma u64_small (z : Z) : 0 <= z < 2 ^ 64 -> u64 z = z.
Proof. intros H. unfold u64. now apply Z.mod_small. Qed.

Lemma u64_sub_le (a b : Z) :
  0 <= b <= a -> a < 2 ^ 64 -> u64_sub a b = a - b.
Proof. intros H1 H2. unfold u64_sub. apply u64_small. lia. Qed.

Lemma u64_sub_wrap (a b : Z) :
  0 <= a < b -> b < 2 ^ 64 -> u64_sub a b = a - b + 2 ^ 64.
Proof.
  intros H1 H2. unfold u64_sub, u64.
  rewrite <- (Z.mod_add (a - b) 1 (2 ^ 64)) by lia.
  apply Z.mod_small. lia.
Qed.

(** ** The staleness gate *)

Section Gate.
Context {W : Type}.
Variables (t : task W) (bc : blockchain W).

Lemma gate_stale fuel anc cur w1 :
  u64 (maxSyncStaleness t) < u64_sub (NumberU64 cur) (NumberU64 anc) ->
  gate fuel t bc (anc, cur) w1 =
  (inr (Return None), snd (CurrentHeader bc w1), [EvCurrentHeader]).
Proof.
  intros H. unfold gate.
  apply Z.gtb_lt in H. rewrite H, bind_call. reflexivity.
Qed.

Lemma gate_fresh fuel anc cur w1 :
  u64_sub (NumberU64 cur) (NumberU64 anc) <= u64 (maxSyncStaleness t) ->
  gate fuel t bc (anc, cur) w1 =
  bind (fetchLoop fuel t bc (Some anc))
    (fun _ =>
       cur <- call EvCurrentHeader (CurrentHeader bc) ;;
       sendSync t false (NumberU64 cur) (NumberU64 (header t)) ;;;
       leave (Return None)) w1.
Proof.
  intros H. unfold gate.
  destruct (Z.gtb_spec (u64_sub (NumberU64 cur) (NumberU64 anc))
              (u64 (maxSyncStaleness t))); [lia|reflexivity].
Qed.

(** One turn of the outer loop starts with the header request. *)
Lemma fetchLoop_starts fuel anc w :
  exists r w2 tr2,
    fetchLoop (S fuel) t bc (Some anc) w = (r, w2, EvGetHeaders anc :: tr2).
Proof.
  cbn [fetchLoop]. rewrite bind_call.
  match goal with |- context [match ?x with _ => _ end] =>
    destruct x as [[r w2] tr2] end.
  eauto.
Qed.

(** An empty batch leaves [Run] from inside the loop. *)
Lemma fetchLoop_empty_batch fuel anc w w2 :
  getHeaders t anc w = (([], None), w2) ->
  fetchLoop (S fuel) t bc (Some anc) w
  = (inr (Return None), w2, [EvGetHeaders anc]).
Proof.
  intros H. cbn [fetchLoop]. rewrite bind_call, H. reflexivity.
Qed.
End Gate.

(** C7: with [maxSyncStaleness = S], a head exactly [S] above the
    ancestor passes the gate and the next thing [Run] does is ask the peer
    for the headers after the ancestor; a head [S + 1] above it makes [Run]
    return nil having fetched nothing and called neither the sync hook nor
    [AddBlock]. *)
Theorem staleness_boundary {W} (fuel : nat) (t : task W) (bc : blockchain W)
    (w w1 : W) (anc cur : IHeader) (tr1 : list Event) (S : Z) :
  prologue t bc w = (inl (anc, cur), w1, tr1) ->
  maxSyncStaleness t = S ->
  0 <= S < 2 ^ 64 ->
  (NumberU64 cur - NumberU64 anc = S ->
   exists e w2 tr2,
     Run (Datatypes.S fuel) t bc w = (e, w2, tr1 ++ EvGetHeaders anc :: tr2)) /\
  (NumberU64 cur - NumberU64 anc = S + 1 ->
   Run fuel t bc w
   = (Return None, snd (CurrentHeader bc w1), tr1 ++ [EvCurrentHeader]) /\
   existsb isFetch (tr1 ++ [EvCurrentHeader]) = false /\
   existsb isCommit (tr1 ++ [EvCurrentHeader]) = false).
Proof.
  intros Hp HS Hr.
  pose proof (NumberU64_range cur) as Hc.
  pose proof (NumberU64_range anc) as Ha.
  split; intros Hd.
  - rewrite (Run_gate t bc _ _ _ _ _ Hp), gate_fresh.
    2:{ rewrite u64_sub_le, HS, u64_small by lia. lia. }
    destruct (fetchLoop_starts t bc fuel anc w1) as (r & w2 & tr2 & Hf).
    destruct r as [u|e].
    + rewrite (bind_inl _ _ _ _ _ _ Hf).
      match goal with |- context [bind ?m ?k w2] =>
        destruct (bind m k w2) as [[[u'|e'] w3] t3] end;
        do 2 eexists; exists (tr2 ++ t3); reflexivity.
    + rewrite (bind_inr _ _ _ _ _ _ Hf). do 2 eexists; exists tr2; reflexivity.
  - rewrite (Run_gate t bc _ _ _ _ _ Hp), gate_stale.
    2:{ rewrite u64_sub_le, HS, u64_small by lia. lia. }
    split; [reflexivity|].
    destruct (prologue_quiet t bc _ _ _ _ Hp) as [Hf Hc'].
    split; apply existsb_false_app; auto.
Qed.

Lemma staleness_boundary_witness :
  (exists e w2 tr2,
     Run 1 (Script.peerTask "shard-1" 4 2 (Script.hdr 12) (Some Script.sink))
       Script.chain Script.forked
     = (e, w2,
        [EvNeedSkip; EvCurrentHeader;
         EvSend (mkSyncingResult false (mkProgress 9 12));
         EvFindAncestor; EvCurrentHeader]
        ++ EvGetHeaders (Script.hdr 5) :: tr2)) /\
  Run 0 (Script.peerTask "shard-1" 3 2 (Script.hdr 12) (Some Script.sink))
    Script.chain Script.forked
  = (Return None, Script.forked,
     [EvNeedSkip; EvCurrentHeader;
      EvSend (mkSyncingResult false (mkProgress 9 12));
      EvFindAncestor; EvCurrentHeader] ++ [EvCurrentHeader]).
Proof.
  split.
  - apply (staleness_boundary 0
             (Script.peerTask "shard-1" 4 2 (Script.hdr 12) (Some Script.sink))
             Script.chain Script.forked Script.forked
             (Script.hdr 5) (Script.hdr 9) _ 4).
    + reflexivity.
    + reflexivity.
    + lia.
    + reflexivity.
  - apply (staleness_boundary 0
             (Script.peerTask "shard-1" 3 2 (Script.hdr 12) (Some Script.sink))
             Script.chain Script.forked Script.forked
             (Script.hdr 5) (Script.hdr 9) _ 3).
    + reflexivity.
    + reflexivity.
    + lia.
    + reflexivity.
Defined.

(** C10: when the ancestor is above the head, the unsigned difference
    wraps to [head - ancestor + 2^64], and for every [maxSyncStaleness]
    below that value [Run] returns nil without a single [AddBlock]. *)
Theorem staleness_wraps {W} (fuel : nat) (t : task W) (bc : blockchain W)
    (w w1 : W) (anc cur : IHeader) (tr1 : list Event) :
  prologue t bc w = (inl (anc, cur), w1, tr1) ->
  NumberU64 cur < NumberU64 anc ->
  u64_sub (NumberU64 cur) (NumberU64 anc)
  = NumberU64 cur - NumberU64 anc + 2 ^ 64 /\
  (u64 (maxSyncStaleness t) < NumberU64 cur - NumberU64 anc + 2 ^ 64 ->
   Run fuel t bc w
   = (Return None, snd (CurrentHeader bc w1), tr1 ++ [EvCurrentHeader]) /\
   added (tr1 ++ [EvCurrentHeader]) = []).
Proof.
  intros Hp Hlt.
  pose proof (NumberU64_range cur) as Hc.
  pose proof (NumberU64_range anc) as Ha.
  assert (Hw : u64_sub (NumberU64 cur) (NumberU64 anc)
               = NumberU64 cur - NumberU64 anc + 2 ^ 64)
    by (apply u64_sub_wrap; lia).
  split; [exact Hw|]. intros HS.
  rewrite (Run_gate t bc _ _ _ _ _ Hp), gate_stale by (rewrite Hw; exact HS).
  split; [reflexivity|].
  apply prologue_events in Hp as [_ ->].
  unfold startEvents. destruct (send t); reflexivity.
Qed.

Lemma staleness_wraps_witness :
  u64_sub (NumberU64 (Script.hdr 5)) (NumberU64 (Script.hdr 9))
  = NumberU64 (Script.hdr 5) - NumberU64 (Script.hdr 9) + 2 ^ 64 /\
  (u64 (maxSyncStaleness Script.shardTask)
   < NumberU64 (Script.hdr 5) - NumberU64 (Script.hdr 9) + 2 ^ 64 ->
   Run 3 Script.shardTask Script.chain Script.ahead
   = (Return None, snd (CurrentHeader Script.chain Script.ahead),
      [EvNeedSkip; EvCurrentHeader;
       EvSend (mkSyncingResult false (mkProgress 5 8));
       EvFindAncestor; EvCurrentHeader] ++ [EvCurrentHeader]) /\
   added ([EvNeedSkip; EvCurrentHeader;
           EvSend (mkSyncingResult false (mkProgress 5 8));
           EvFindAncestor; EvCurrentHeader] ++ [EvCurrentHeader]) = []).
Proof.
  apply (staleness_wraps 3 Script.shardTask Script.chain
           Script.ahead Script.ahead (Script.hdr 9) (Script.hdr 5)).
  - reflexivity.
  - vm_compute. reflexivity.
Defined.

(** ** An empty header batch *)

(** C3 (what the code does): when the header fetcher answers the first
    request with an empty batch, [Run] returns nil from inside the loop;
    the last call it made is that request, and the only progress event of
    the run is the start event: the end event after the loop is not
    reached. *)
Theorem Run_empty_batch {W} (fuel : nat) (t : task W) (bc : blockchain W)
    (w w1 w2 : W) (anc cur : IHeader) (tr1 : list Event) :
  prologue t bc w = (inl (anc, cur), w1, tr1) ->
  u64_sub (NumberU64 cur) (NumberU64 anc) <= u64 (maxSyncStaleness t) ->
  getHeaders t anc w1 = (([], None), w2) ->
  Run (S fuel) t bc w = (Return None, w2, tr1 ++ [EvGetHeaders anc]) /\
  sent (tr1 ++ [EvGetHeaders anc])
  = sent (startEvents t (fst (CurrentHeader bc (snd (needSkip t bc w))))).
Proof.
  intros Hp Hfresh Hget.
  rewrite (Run_gate t bc _ _ _ _ _ Hp), gate_fresh by exact Hfresh.
  rewrite (bind_inr _ _ _ _ _ _ (fetchLoop_empty_batch t bc fuel anc w1 w2 Hget)).
  split; [reflexivity|].
  apply prologue_events in Hp as [_ ->].
  unfold startEvents. destruct (send t); reflexivity.
Qed.

Lemma Run_empty_batch_witness :
  Run 1 Script.shardTask Script.chain Script.caughtUp
  = (Return None, Script.caughtUp,
     [EvNeedSkip; EvCurrentHeader;
      EvSend (mkSyncingResult false (mkProgress 5 8));
      EvFindAncestor; EvCurrentHeader] ++ [EvGetHeaders (Script.hdr 5)]) /\
  sent ([EvNeedSkip; EvCurrentHeader;
         EvSend (mkSyncingResult false (mkProgress 5 8));
         EvFindAncestor; EvCurrentHeader] ++ [EvGetHeaders (Script.hdr 5)])
  = sent (startEvents Script.shardTask (Script.hdr 5)).
Proof.
  apply (Run_empty_batch 0 Script.shardTask Script.chain
           Script.caughtUp Script.caughtUp Script.caughtUp
           (Script.hdr 5) (Script.hdr 5)).
  - reflexivity.
  - vm_compute. discriminate.
  - reflexivity.
Defined.

(** The end event is sent when the loop condition itself ends the loop:
    block 6 has no header, so the ancestor becomes nil after it. *)
Lemma Run_loop_exit_sends_end_event :
  Run 3 Script.shardTask Script.chain Script.headless
  = (Return None,
     snd (getHeaders Script.shardTask (Script.hdr 5) Script.headless),
     [EvNeedSkip; EvCurrentHeader;
      EvSend (mkSyncingResult false (mkProgress 5 8));
      EvFindAncestor; EvCurrentHeader;
      EvGetHeaders (Script.hdr 5); EvValidateSeal (Script.hdr 6) false;
      EvGetBlocks [6]; EvAddBlock (mkBlock 6 None);
      EvCurrentHeader;
      EvSend (mkSyncingResult false (mkProgress 5 8))]).
Proof. vm_compute. reflexivity. Qed.

(** The same on a run that commits blocks first: the peer serves 6..8 and
    then an empty batch; one progress event is sent in all. *)
Lemma Run_exhausted_peer_events :
  fst (fst (Run 5 Script.shardTask Script.chain Script.behind)) = Return None /\
  added (snd (Run 5 Script.shardTask Script.chain Script.behind))
  = Script.blks 5 3 /\
  sent (snd (Run 5 Script.shardTask Script.chain Script.behind))
  = [mkSyncingResult false (mkProgress 5 8)].
Proof. vm_compute. repeat split. Qed.

(** ** Attaching the sink *)

Section Sink.
Context {W : Type}.
Implicit Types (t : task W) (f g : option (SyncingResult -> W -> Z * W)).

Lemma SetSendFunc_attached t f :
  send t <> None -> SetSendFunc t f = t.
Proof.
  intros H. unfold SetSendFunc.
  destruct (send t); [|contradiction].
  now rewrite andb_false_r.
Qed.

Lemma SetSendFunc_outside t f :
  String.prefix "shard-" (name t) = false -> SetSendFunc t f = t.
Proof. intros H. unfold SetSendFunc. now rewrite H. Qed.

Lemma SetSendFunc_outside_many t (fs : list (option (SyncingResult -> W -> Z * W))) :
  String.prefix "shard-" (name t) = false ->
  fold_left SetSendFunc fs t = t.
Proof.
  intros H. induction fs as [|f fs IH]; [reflexivity|].
  cbn. now rewrite SetSendFunc_outside.
Qed.

Lemma sendSync_no_sink t syncing curr best (w : W) :
  send t = None -> sendSync t syncing curr best w = (inl tt, w, []).
Proof. intros H. unfold sendSync. now rewrite H. Qed.
End Sink.

(** C9: [SetSendFunc] stores the sink it is given exactly when the task's
    name starts with "shard-" and no sink is stored yet; on a task that
    has a sink a later call changes nothing; a task whose name lacks the
    prefix is left unchanged by any number of calls, so if it started
    without a sink [sendSync] calls nothing and logs nothing for it. *)
Theorem SetSendFunc_first_writer_wins {W} (t : task W)
    (f g : option (SyncingResult -> W -> Z * W)) :
  (String.prefix "shard-" (name t) = true -> send t = None ->
   send (SetSendFunc t f) = f) /\
  (SetSendFunc t f <> t ->
   String.prefix "shard-" (name t) = true /\ send t = None) /\
  (send t <> None -> SetSendFunc t g = t) /\
  (send (SetSendFunc t f) <> None ->
   SetSendFunc (SetSendFunc t f) g = SetSendFunc t f) /\
  (String.prefix "shard-" (name t) = false ->
   forall fs, fold_left SetSendFunc fs t = t) /\
  (String.prefix "shard-" (name t) = false -> send t = None ->
   forall fs syncing curr best w,
     sendSync (fold_left SetSendFunc fs t) syncing curr best w = (inl tt, w, [])).
Proof.
  repeat split.
  - intros Hp Hs. unfold SetSendFunc. rewrite Hp, Hs. reflexivity.
  - destruct (String.prefix "shard-" (name t)) eqn:Hp; [reflexivity|].
    exfalso. apply H. now apply SetSendFunc_outside.
  - destruct (send t) eqn:Hs; [|reflexivity].
    exfalso. apply H. apply SetSendFunc_attached. now rewrite Hs.
  - apply SetSendFunc_attached.
  - apply SetSendFunc_attached.
  - intros Hp fs. now apply SetSendFunc_outside_many.
  - intros Hp Hs fs syncing curr best w.
    rewrite SetSendFunc_outside_many by exact Hp.
    now apply sendSync_no_sink.
Qed.

Lemma SetSendFunc_first_writer_wins_witness :
  send (SetSendFunc (Script.peerTask "shard-7" 100 2 (Script.hdr 8) None)
          (Some Script.sink)) = Some Script.sink /\
  SetSendFunc Script.shardTask (Some Script.sink2) = Script.shardTask /\
  sendSync (fold_left SetSendFunc [Some Script.sink; Some Script.sink2]
              (Script.peerTask "root" 100 2 (Script.hdr 8) None))
    true 6 8 Script.behind = (inl tt, Script.behind, []).
Proof.
  split; [|split].
  - apply (SetSendFunc_first_writer_wins
             (Script.peerTask "shard-7" 100 2 (Script.hdr 8) None)
             (Some Script.sink) None); reflexivity.
  - apply (SetSendFunc_first_writer_wins Script.shardTask None (Some Script.sink2)).
    discriminate.
  - apply (SetSendFunc_first_writer_wins
             (Script.peerTask "root" 100 2 (Script.hdr 8) None) None None);
      reflexivity.
Defined.

(** ** The header validator *)

Lemma checkLink_None (p h : IHeader) : checkLink p h = None <-> extends p h.
Proof.
  unfold checkLink, extends.
  destruct (Z.eqb_spec (NumberU64 h) (u64_add (NumberU64 p) 1));
    destruct (Z.eqb_spec (Hash p) (GetParentHash h)); cbn;
    split; intros H; try discriminate; try tauto.
Qed.

Lemma checkLink_Some (p h : IHeader) (e : error) :
  checkLink p h = Some e -> protocolViolation e = true /\ ~ extends p h.
Proof.
  intros H. split.
  - unfold checkLink in H.
    destruct (negb _); [now inversion H|].
    destruct (negb _); [now inversion H|discriminate].
  - intros Hx. apply checkLink_None in Hx. congruence.
Qed.

Lemma linked_nil : linked [].
Proof. intros [|i] p c H; discriminate. Qed.

Lemma linked_one (h : IHeader) : linked [h].
Proof. intros [|[|i]] p c H1 H2; discriminate. Qed.

Lemma linked_cons (p h : IHeader) (B : list IHeader) :
  linked (p :: h :: B) <-> extends p h /\ linked (h :: B).
Proof.
  split.
  - intros H. split.
    + apply (H 0%nat); reflexivity.
    + intros i a b Ha Hb. apply (H (S i)); assumption.
  - intros [Hx HB] [|i] a b Ha Hb.
    + cbn in Ha, Hb. inversion Ha; inversion Hb; subst. exact Hx.
    + apply (HB i); assumption.
Qed.

Lemma linkedFrom_cons (prev : option IHeader) (h : IHeader) (B : list IHeader) :
  linkedFrom prev (h :: B) <->
  match prev with Some p => extends p h | None => True end /\
  linkedFrom (Some h) B.
Proof.
  destruct prev as [p|]; cbn.
  - apply linked_cons.
  - tauto.
Qed.

Section Validator.
Context {W : Type}.
Variable bc : blockchain W.

(** The validator returns normally, and its log is the seal checks of a
    prefix of the batch. *)
Lemma validateFrom_events prev B w :
  exists v w' k,
    validateFrom bc prev B w = (inl v, w', sealEvents (firstn k B)).
Proof.
  revert prev w. induction B as [|h B IH]; intros prev w.
  - exists None, w, 0%nat. reflexivity.
  - cbn [validateFrom].
    destruct (match prev with Some p => checkLink p h | None => None end)
      as [e|].
    + exists (Some e), w, 0%nat. reflexivity.
    + rewrite bind_call.
      destruct (fst (ValidateSeal bc h false w)) as [e|].
      * exists (Some e), (snd (ValidateSeal bc h false w)), 1%nat. reflexivity.
      * destruct (IH (Some h) (snd (ValidateSeal bc h false w)))
          as (v & w' & k & ->).
        exists v, w', (S k). reflexivity.
Qed.

(** An accepted batch is linked and every header had its seal checked. *)
Lemma validateFrom_accept prev B w w' tr :
  validateFrom bc prev B w = (inl None, w', tr) ->
  linkedFrom prev B /\ tr = sealEvents B.
Proof.
  revert prev w tr. induction B as [|h B IH]; intros prev w tr.
  - cbn. intros H; inversion H; subst. split; [|reflexivity].
    destruct prev; [apply linked_one|apply linked_nil].
  - cbn [validateFrom]. intros H.
    assert (Hl : match prev with Some p => checkLink p h | None => None end
                 = None).
    { destruct (match prev with Some p => checkLink p h | None => None end);
        [discriminate|reflexivity]. }
    rewrite Hl, bind_call in H.
    destruct (fst (ValidateSeal bc h false w)) as [e|]; [discriminate|].
    destruct (validateFrom bc (Some h) B (snd (ValidateSeal bc h false w)))
      as [[r w2] t2] eqn:Hv.
    inversion H; subst.
    destruct (IH _ _ _ Hv) as [HB ->].
    split; [|reflexivity].
    apply linkedFrom_cons. split; [|exact HB].
    destruct prev as [p|]; [now apply checkLink_None|exact I].
Qed.

(** With seals that pass, the only errors are the validator's own. *)
Lemma validateFrom_own_error prev B w w' tr e :
  (forall h w0, In h B -> fst (ValidateSeal bc h false w0) = None) ->
  validateFrom bc prev B w = (inl (Some e), w', tr) ->
  protocolViolation e = true.
Proof.
  revert prev w tr. induction B as [|h B IH]; intros prev w tr Hseal.
  - discriminate.
  - cbn [validateFrom].
    destruct (match prev with Some p => checkLink p h | None => None end)
      as [e0|] eqn:Hl.
    + intros H. inversion H; subst.
      destruct prev as [p|]; [|discriminate].
      now apply checkLink_Some in Hl.
    + rewrite bind_call, (Hseal h w (or_introl eq_refl)).
      destruct (validateFrom bc (Some h) B (snd (ValidateSeal bc h false w)))
        as [[r w2] t2] eqn:Hv.
      intros H. inversion H; subst.
      apply (IH _ _ _ (fun h0 w0 Hin => Hseal h0 w0 (or_intror Hin)) Hv).
Qed.

(** A linked batch with seals that pass is accepted. *)
Lemma validateFrom_pass prev B w :
  linkedFrom prev B ->
  (forall h w0, In h B -> fst (ValidateSeal bc h false w0) = None) ->
  exists w', validateFrom bc prev B w = (inl None, w', sealEvents B).
Proof.
  revert prev w. induction B as [|h B IH]; intros prev w HB Hseal.
  - exists w. reflexivity.
  - apply linkedFrom_cons in HB as [Hx HB].
    cbn [validateFrom].
    assert (Hl : match prev with Some p => checkLink p h | None => None end
                 = None).
    { destruct prev as [p|]; [now apply checkLink_None|reflexivity]. }
    rewrite Hl, bind_call, (Hseal h w (or_introl eq_refl)).
    destruct (IH (Some h) (snd (ValidateSeal bc h false w)) HB
                (fun h0 w0 Hin => Hseal h0 w0 (or_intror Hin))) as [w' ->].
    exists w'. reflexivity.
Qed.

Lemma sealEvents_quiet B :
  existsb isFetch (sealEvents B) = false /\
  existsb isCommit (sealEvents B) = false /\
  added (sealEvents B) = [].
Proof. induction B as [|h B (H1 & H2 & H3)]; cbn; auto. Qed.

Variable t : task W.

(** A rejected batch ends [Run] with the validator's error, after the
    header request and the seal checks only. *)
Lemma fetchLoop_rejected fuel anc w B w1 e w2 tr :
  getHeaders t anc w = ((B, None), w1) ->
  validateHeaderList t bc B w1 = (inl (Some e), w2, tr) ->
  fetchLoop (S fuel) t bc (Some anc) w
  = (inr (Return (Some e)), w2, EvGetHeaders anc :: tr).
Proof.
  intros Hget Hv. cbn [fetchLoop]. rewrite bind_call, Hget. cbn [fst snd].
  destruct B as [|h B]; [discriminate|].
  change (len (h :: B) =? 0) with false. cbv iota.
  rewrite (bind_inl _ _ _ _ _ _ Hv). cbn. now rewrite app_nil_r.
Qed.
End Validator.

(** C6 as claimed fails: this batch has a gap (6, 9), yet the error [Run]
    returns is the seal validator's, raised on header 6 before the gap is
    looked at. *)
Lemma gap_after_bad_seal :
  ~ linked [Script.hdr 6; Script.hdr 9] /\
  fst (getHeaders Script.shardTask (Script.hdr 5) Script.gapAfterBadSeal)
  = ([Script.hdr 6; Script.hdr 9], None) /\
  fst (fst (Run 3 Script.shardTask (Script.chainWith [6] [])
              Script.gapAfterBadSeal))
  = Return (Some (ErrExternal "bad seal")) /\
  protocolViolation (ErrExternal "bad seal") = false.
Proof.
  split.
  - intros H. destruct (H 0%nat (Script.hdr 6) (Script.hdr 9) eq_refl eq_refl)
      as [Hn _]. discriminate Hn.
  - vm_compute. repeat split.
Qed.

(** ** The inner loop *)

Lemma len_firstn {A} (n : Z) (l : list A) :
  0 <= n -> n <= len l -> len (firstn (Z.to_nat n) l) = n.
Proof.
  unfold len. intros H0 H1. rewrite length_firstn. lia.
Qed.

Section InnerLoop.
Context {W : Type}.
Variables (t : task W) (bc : blockchain W).

Lemma len_requested hashlist :
  0 <= batchSize t ->
  len (requested t hashlist) = Z.min (batchSize t) (len hashlist).
Proof.
  intros H. unfold requested.
  destruct (Z.gtb_spec (len hashlist) (batchSize t)).
  - rewrite len_firstn by lia. lia.
  - lia.
Qed.

(** One turn of the inner loop. *)
Lemma commitLoop_step fuel hashlist a w :
  hashlist <> [] ->
  0 <= batchSize t ->
  commitLoop (S fuel) t bc hashlist a w =
  let r := getBlocks t (requested t hashlist) w in
  match snd (fst r) with
  | Some e => (inr (Return (Some e)), snd r, [EvGetBlocks (requested t hashlist)])
  | None =>
      if len (fst (fst r)) =? len (requested t hashlist)
      then
        match bind (commitBlocks t bc (fst (fst r)) (fst (fst r)) 0 a)
                (commitLoop fuel t bc (remaining t hashlist)) (snd r) with
        | (x, w2, t2) => (x, w2, EvGetBlocks (requested t hashlist) :: t2)
        end
      else
        (inr (Return (Some (unmatched t hashlist (len (fst (fst r)))))),
         snd r, [EvGetBlocks (requested t hashlist)])
  end.
Proof.
  intros Hne Hbs.
  assert (Hpos : (len hashlist >? 0) = true).
  { destruct hashlist; [contradiction|reflexivity]. }
  pose proof (len_requested hashlist Hbs) as Hlen.
  cbn [commitLoop]. rewrite Hpos.
  unfold requested, remaining, unmatched in *.
  destruct (Z.gtb_spec (len hashlist) (batchSize t)) as [Hgt|Hle].
  - destruct (Z.ltb_spec (batchSize t) 0) as [|_]; [lia|].
    rewrite bind_call, Hlen, Z.min_l by lia.
    destruct (getBlocks t _ w) as [[blocks [e|]] w1]; cbn [fst snd];
      [reflexivity|].
    destruct (len blocks =? batchSize t); reflexivity.
  - rewrite bind_call.
    destruct (getBlocks t _ w) as [[blocks [e|]] w1]; cbn [fst snd];
      [reflexivity|].
    destruct (len blocks =? len hashlist); reflexivity.
Qed.

Lemma commitLoop_starts fuel hashlist a w :
  hashlist <> [] ->
  0 <= batchSize t ->
  exists r w2 tr2,
    commitLoop (S fuel) t bc hashlist a w
    = (r, w2, EvGetBlocks (requested t hashlist) :: tr2).
Proof.
  intros Hne Hbs. rewrite commitLoop_step by assumption. cbv zeta.
  destruct (snd (fst _)); [eauto|].
  destruct (Z.eqb _ _); [|eauto].
  destruct (bind _ _ _) as [[x w2] t2]. eauto.
Qed.

(** An accepted batch is followed by the first block request. *)
Lemma fetchLoop_accepted fuel anc w B w1 w2 :
  getHeaders t anc w = ((B, None), w1) ->
  B <> [] ->
  validateHeaderList t bc B w1 = (inl None, w2, sealEvents B) ->
  0 <= batchSize t ->
  exists r w3 tr3,
    fetchLoop (S fuel) t bc (Some anc) w
    = (r, w3,
       EvGetHeaders anc
       :: sealEvents B ++ EvGetBlocks (requested t (map Hash B)) :: tr3).
Proof.
  intros Hget Hne Hv Hbs. cbn [fetchLoop]. rewrite bind_call, Hget.
  cbn [fst snd].
  destruct B as [|h B]; [contradiction|].
  change (len (h :: B) =? 0) with false. cbv iota.
  rewrite (bind_inl _ _ _ _ _ _ Hv).
  destruct (commitLoop_starts fuel (map Hash (h :: B)) (Some anc) w2)
    as (r & w3 & tr3 & Hc); [discriminate|assumption|].
  destruct r as [a|e].
  - rewrite (bind_inl _ _ _ _ _ _ Hc).
    destruct (fetchLoop fuel t bc a w3) as [[x w4] t4].
    exists x, w4, (tr3 ++ t4). reflexivity.
  - rewrite (bind_inr _ _ _ _ _ _ Hc). eauto.
Qed.
End InnerLoop.

(** C1 as claimed fails: the batch 9, 10 does not extend the ancestor 5,
    and [Run] fetches and commits both blocks and returns nil. *)
Lemma detached_batch_is_committed :
  fst (prologue Script.shardTask Script.chain Script.detached)
  = (inl (Script.hdr 5, Script.hdr 5), Script.detached) /\
  fst (getHeaders Script.shardTask (Script.hdr 5) Script.detached)
  = ([Script.hdr 9; Script.hdr 10], None) /\
  ~ extends (Script.hdr 5) (Script.hdr 9) /\
  fst (fst (Run 3 Script.shardTask Script.chain Script.detached)) = Return None /\
  added (snd (Run 3 Script.shardTask Script.chain Script.detached))
  = [Script.blk 9; Script.blk 10].
Proof.
  repeat split; try (vm_compute; reflexivity).
  intros [Hn _]. discriminate Hn.
Qed.

(** ** Committing a response *)

Lemma hundredthFrom_cons (n : nat) (b : IBlock) (l : list IBlock) :
  hundredthFrom n (b :: l) =
  (if Z.rem (Z.of_nat n + 1) 100 =? 0 then [b] else []) ++ hundredthFrom (S n) l.
Proof.
  unfold hundredthFrom. cbn [List.length seq combine filter fst].
  rewrite Z.rem_mod_nonneg by lia.
  replace (Z.of_nat n + 1) with (Z.of_nat (S n)) by lia.
  destruct (Z.of_nat (S n) mod 100 =? 0); reflexivity.
Qed.

Section Commit.
Context {W : Type}.
Variables (t : task W) (bc : blockchain W).

Lemma commitsPass_tail b l : commitsPass t bc (b :: l) -> commitsPass t bc l.
Proof.
  intros [H1 H2]. split.
  - intros b0 w0 Hin. apply H1. now right.
  - intros hook b0 w0 Hh Hin. apply (H2 hook); [assumption|now right].
Qed.

(** When nothing fails the loop over a response adds every block, in
    order, and sends an event after each block whose position is a
    multiple of 100. *)
Lemma commitBlocks_pass blocks todo (n : nat) a w :
  commitsPass t bc todo ->
  exists a' w2 tr,
    commitBlocks t bc blocks todo (Z.of_nat n) a w = (inl a', w2, tr) /\
    added tr = todo /\
    sent tr = match send t with
              | Some _ => progressOf blocks (hundredthFrom n todo)
              | None => []
              end.
Proof.
  revert n a w. induction todo as [|b todo IH]; intros n a w Hok.
  - exists a, w, []. repeat split. now destruct (send t).
  - cbn [commitBlocks].
    assert (Hhook : exists w1 tr1,
               (match syncBlock t with
                | Some hook =>
                    e <- call (EvSyncBlock b) (hook bc b) ;;
                    match e with
                    | Some e => leave (Return (Some e))
                    | None => ret tt
                    end
                | None => ret tt
                end) w = (inl tt, w1, tr1)
               /\ added tr1 = [] /\ sent tr1 = []).
    { destruct (syncBlock t) as [hook|] eqn:Hh.
      - rewrite bind_call.
        rewrite (proj2 Hok hook b w Hh (or_introl eq_refl)).
        do 2 eexists. repeat split.
      - exists w, []. repeat split. }
    destruct Hhook as (w1 & tr1 & Hhook & Ha1 & Hs1).
    rewrite (bind_inl _ _ _ _ _ _ Hhook), bind_call.
    rewrite (proj1 Hok b w1 (or_introl eq_refl)), bind_ret.
    set (w2 := snd (AddBlock bc b w1)).
    assert (Hsend : exists w3 tr3,
               (if Z.rem (Z.of_nat n + 1) 100 =? 0
                then sendSync t true (BlockNumberU64 b)
                       (BlockNumberU64 (last blocks b))
                else ret tt) w2 = (inl tt, w3, tr3)
               /\ added tr3 = []
               /\ sent tr3 = match send t with
                             | Some _ =>
                                 progressOf blocks
                                   (if Z.rem (Z.of_nat n + 1) 100 =? 0
                                    then [b] else [])
                             | None => []
                             end).
    { destruct (Z.rem (Z.of_nat n + 1) 100 =? 0).
      - destruct (sendSync_run t true (BlockNumberU64 b)
                    (BlockNumberU64 (last blocks b)) w2) as [w3 Hs].
        rewrite Hs. do 2 eexists. split; [reflexivity|].
        destruct (send t); split; reflexivity.
      - exists w2, []. repeat split. now destruct (send t). }
    destruct Hsend as (w3 & tr3 & Hsend & Ha3 & Hs3).
    rewrite (bind_inl _ _ _ _ _ _ Hsend).
    replace (Z.of_nat n + 1) with (Z.of_nat (S n)) by lia.
    destruct (IH (S n) (bHeader b) w3 (commitsPass_tail _ _ Hok))
      as (a' & w4 & tr4 & Hrec & Ha4 & Hs4).
    rewrite Hrec.
    exists a', w4, (tr1 ++ EvAddBlock b :: tr3 ++ tr4).
    split; [reflexivity|]. split.
    + rewrite added_app, Ha1. cbn. now rewrite added_app, Ha3, Ha4.
    + rewrite sent_app, Hs1. cbn [app sent]. rewrite sent_app, Hs3, Hs4.
      rewrite hundredthFrom_cons.
      destruct (send t); [|reflexivity].
      unfold progressOf. now rewrite map_app.
Qed.

(** In every case the blocks handed to [AddBlock] are a prefix of the
    response, and all of it when the loop runs to its end. *)
Lemma commitBlocks_prefix blocks todo c a w :
  exists r w2 tr k,
    commitBlocks t bc blocks todo c a w = (r, w2, tr) /\
    added tr = firstn k todo /\
    (forall a', r = inl a' -> added tr = todo).
Proof.
  revert c a w. induction todo as [|b todo IH]; intros c a w.
  - exists (inl a), w, [], 0%nat. repeat split.
  - cbn [commitBlocks].
    assert (Hhook : exists r1 w1 tr1,
               (match syncBlock t with
                | Some hook =>
                    e <- call (EvSyncBlock b) (hook bc b) ;;
                    match e with
                    | Some e => leave (Return (Some e))
                    | None => ret tt
                    end
                | None => ret tt
                end) w = (r1, w1, tr1) /\ added tr1 = []).
    { destruct (syncBlock t) as [hook|].
      - rewrite bind_call.
        destruct (fst (hook bc b w)); do 3 eexists; split; reflexivity.
      - exists (inl tt), w, []. split; reflexivity. }
    destruct Hhook as (r1 & w1 & tr1 & Hhook & Ha1).
    destruct r1 as [[]|e1].
    2:{ rewrite (bind_inr _ _ _ _ _ _ Hhook).
        exists (inr e1), w1, tr1, 0%nat. repeat split; [assumption|discriminate]. }
    rewrite (bind_inl _ _ _ _ _ _ Hhook), bind_call.
    set (w2 := snd (AddBlock bc b w1)).
    destruct (fst (AddBlock bc b w1)) as [e|].
    { rewrite bind_leave.
      exists (inr (Return (Some e))), w2, (tr1 ++ [EvAddBlock b]), 1%nat.
      repeat split; [|discriminate].
      rewrite added_app, Ha1. reflexivity. }
    rewrite bind_ret.
    assert (Hsend : exists w3 tr3,
               (if Z.rem (c + 1) 100 =? 0
                then sendSync t true (BlockNumberU64 b)
                       (BlockNumberU64 (last blocks b))
                else ret tt) w2 = (inl tt, w3, tr3) /\ added tr3 = []).
    { destruct (Z.rem (c + 1) 100 =? 0).
      - destruct (sendSync_run t true (BlockNumberU64 b)
                    (BlockNumberU64 (last blocks b)) w2) as [w3 Hs].
        rewrite Hs. do 2 eexists. split; [reflexivity|].
        destruct (send t); reflexivity.
      - exists w2, []. split; reflexivity. }
    destruct Hsend as (w3 & tr3 & Hsend & Ha3).
    rewrite (bind_inl _ _ _ _ _ _ Hsend).
    destruct (IH (c + 1) (bHeader b) w3) as (r & w4 & tr4 & k & Hrec & Ha4 & Hall).
    rewrite Hrec.
    exists r, w4, (tr1 ++ EvAddBlock b :: tr3 ++ tr4), (S k).
    split; [reflexivity|].
    assert (Hadd : added (tr1 ++ EvAddBlock b :: tr3 ++ tr4) = b :: added tr4).
    { rewrite added_app, Ha1. cbn. now rewrite added_app, Ha3. }
    rewrite Hadd. split.
    + now rewrite Ha4.
    + intros a' Hr. f_equal. now apply (Hall a').
Qed.
End Commit.

Lemma hundredthFrom_short (n : nat) (l : list IBlock) :
  (n + List.length l < 100)%nat -> hundredthFrom n l = [].
Proof.
  revert n. induction l as [|b l IH]; intros n H; [reflexivity|].
  cbn [List.length] in H.
  rewrite hundredthFrom_cons, IH by lia.
  rewrite Z.rem_small by lia.
  destruct (Z.eqb_spec (Z.of_nat n + 1) 0); [lia|reflexivity].
Qed.

(** The same seen from [Run]: the peer has lost block 7, the request for
    6 and 7 is answered with one block, and [Run] returns the error with
    nothing added. *)
Lemma Run_lossy_peer :
  Run 3 Script.shardTask Script.chain Script.lossy
  = (Return (Some (ErrUnmatchedLength1 2 1)),
     snd (getHeaders Script.shardTask (Script.hdr 5) Script.lossy),
     [EvNeedSkip; EvCurrentHeader;
      EvSend (mkSyncingResult false (mkProgress 5 8));
      EvFindAncestor; EvCurrentHeader;
      EvGetHeaders (Script.hdr 5);
      EvValidateSeal (Script.hdr 6) false;
      EvValidateSeal (Script.hdr 7) false;
      EvValidateSeal (Script.hdr 8) false;
      EvGetBlocks [6; 7]]).
Proof. vm_compute. reflexivity. Qed.


(** * The rest of [Run] *)

(** ** Errors of the ancestor locator and of the fetchers *)

(** X1: past the skip gate, when the ancestor locator returns an error, or
    no error and a nil header, [Run] returns exactly that error value (nil
    in the second case) whatever header came with it; it has read the head
    once, sent the start event and called the locator, and nothing else:
    no header or block request, no hook, no [AddBlock]. *)
Theorem Run_without_ancestor {W} (fuel : nat) (t : task W) (bc : blockchain W)
    (w w' : W) (a : option IHeader) (err : option error) :
  fst (needSkip t bc w) = false ->
  findAncestor t bc (atAncestorCall t bc w) = ((a, err), w') ->
  err <> None \/ a = None ->
  Run fuel t bc w
  = (Return err, w',
     [EvNeedSkip; EvCurrentHeader]
     ++ startEvents t (fst (CurrentHeader bc (snd (needSkip t bc w))))
     ++ [EvFindAncestor]).
Proof.
  intros Hskip Hfind Hnone. unfold Run, RunM, atAncestorCall in *.
  rewrite bind_call, Hskip, bind_call.
  set (h0 := fst (CurrentHeader bc _)) in *.
  set (w0 := snd (CurrentHeader bc _)) in *.
  destruct (sendSync_run t false (NumberU64 h0) (NumberU64 (header t)) w0)
    as [w2 Hs].
  rewrite Hs in Hfind. cbn [fst snd] in Hfind.
  rewrite (bind_inl _ _ _ _ _ _ Hs), bind_call, Hfind. cbn [fst snd].
  unfold startEvents.
  destruct err as [e|].
  - destruct (send t); reflexivity.
  - destruct Hnone as [Hn| ->]; [contradiction|].
    destruct (send t); reflexivity.
Qed.

Lemma Run_without_ancestor_witness :
  Run 3 Script.shardTask Script.chain Peer.unrelated
  = (Return None, Peer.unrelated,
     [EvNeedSkip; EvCurrentHeader]
     ++ startEvents Script.shardTask (Script.hdr 5) ++ [EvFindAncestor]) /\
  Run 3 (Peer.failingTask (Some (ErrExternal "locator")) None None)
    Script.chain Script.behind
  = (Return (Some (ErrExternal "locator")), Script.behind,
     [EvNeedSkip; EvCurrentHeader]
     ++ startEvents (Peer.failingTask (Some (ErrExternal "locator")) None None)
          (Script.hdr 5)
     ++ [EvFindAncestor]).
Proof.
  split.
  - apply (Run_without_ancestor 3 Script.shardTask Script.chain
             Peer.unrelated Peer.unrelated None None).
    + reflexivity.
    + reflexivity.
    + right. reflexivity.
  - apply (Run_without_ancestor 3
             (Peer.failingTask (Some (ErrExternal "locator")) None None)
             Script.chain Script.behind Script.behind (Some (Script.hdr 5))
             (Some (ErrExternal "locator"))).
    + reflexivity.
    + reflexivity.
    + left. discriminate.
Defined.

(** X2: when the header fetcher returns an error, [Run] returns that error
    and looks at nothing else the fetcher returned: the headers that came
    with the error are neither seal-checked nor fetched, and the end event
    is not sent. *)
Theorem Run_header_fetch_error {W} (fuel : nat) (t : task W) (bc : blockchain W)
    (w w1 w2 : W) (anc cur : IHeader) (tr1 : list Event)
    (hs : list IHeader) (e : error) :
  prologue t bc w = (inl (anc, cur), w1, tr1) ->
  u64_sub (NumberU64 cur) (NumberU64 anc) <= u64 (maxSyncStaleness t) ->
  getHeaders t anc w1 = ((hs, Some e), w2) ->
  Run (S fuel) t bc w = (Return (Some e), w2, tr1 ++ [EvGetHeaders anc]).
Proof.
  intros Hp Hfresh Hget.
  rewrite (Run_gate t bc _ _ _ _ _ Hp), gate_fresh by exact Hfresh.
  assert (Hloop : fetchLoop (S fuel) t bc (Some anc) w1
                  = (inr (Return (Some e)), w2, [EvGetHeaders anc])).
  { cbn [fetchLoop]. rewrite bind_call, Hget. reflexivity. }
  rewrite (bind_inr _ _ _ _ _ _ Hloop). reflexivity.
Qed.

Lemma Run_header_fetch_error_witness :
  Run 1 (Peer.failingTask None (Some (ErrExternal "headers")) None)
    Script.chain Script.behind
  = (Return (Some (ErrExternal "headers")), Script.behind,
     [EvNeedSkip; EvCurrentHeader;
      EvSend (mkSyncingResult false (mkProgress 5 8));
      EvFindAncestor; EvCurrentHeader] ++ [EvGetHeaders (Script.hdr 5)]).
Proof.
  apply (Run_header_fetch_error 0
           (Peer.failingTask None (Some (ErrExternal "headers")) None)
           Script.chain Script.behind Script.behind Script.behind
           (Script.hdr 5) (Script.hdr 5) _ (Script.hdrs 5 3)).
  - reflexivity.
  - vm_compute. discriminate.
  - reflexivity.
Defined.

(** X3: when the block fetcher returns an error, the turn of the inner
    loop ends [Run] with that error before the length of the response is
    looked at: even a response of the right length is dropped, and no hook
    or [AddBlock] call is made for it. *)
Theorem commitLoop_block_fetch_error {W} (fuel : nat) (t : task W)
    (bc : blockchain W) (hashlist : list common_Hash) (a : option IHeader)
    (w w1 : W) (blocks : list IBlock) (e : error) :
  hashlist <> [] ->
  0 <= batchSize t ->
  getBlocks t (requested t hashlist) w = ((blocks, Some e), w1) ->
  commitLoop (S fuel) t bc hashlist a w
  = (inr (Return (Some e)), w1, [EvGetBlocks (requested t hashlist)]).
Proof.
  intros Hne Hbs Hget.
  rewrite commitLoop_step by assumption. cbv zeta. rewrite Hget. reflexivity.
Qed.

Lemma commitLoop_block_fetch_error_witness :
  commitLoop 1 (Peer.failingTask None None (Some (ErrExternal "blocks")))
    Script.chain [6; 7; 8] (Some (Script.hdr 5)) Script.behind
  = (inr (Return (Some (ErrExternal "blocks"))), Script.behind,
     [EvGetBlocks [6; 7]]).
Proof.
  apply (commitLoop_block_fetch_error 0
           (Peer.failingTask None None (Some (ErrExternal "blocks")))
           Script.chain [6; 7; 8] (Some (Script.hdr 5))
           Script.behind Script.behind [Script.blk 6; Script.blk 7]).
  - discriminate.
  - cbn. lia.
  - reflexivity.
Defined.

(** ** The end of the loop *)

(** X13: when the loop of [Run] ends because the ancestor has become nil,
    [Run] reads the head again, sends (to an attached sink) the end event
    {syncing=false, current = that head's number, highest = the target's
    number} and returns nil. *)
Theorem Run_end_event_after_loop {W} (fuel : nat) (t : task W) (bc : blockchain W)
    (w w1 w2 : W) (anc cur : IHeader) (tr1 tr2 : list Event) :
  prologue t bc w = (inl (anc, cur), w1, tr1) ->
  u64_sub (NumberU64 cur) (NumberU64 anc) <= u64 (maxSyncStaleness t) ->
  fetchLoop fuel t bc (Some anc) w1 = (inl tt, w2, tr2) ->
  exists w3,
    Run fuel t bc w
    = (Return None, w3,
       tr1 ++ tr2 ++ EvCurrentHeader
       :: endEvents t (fst (CurrentHeader bc w2))).
Proof.
  intros Hp Hfresh Hloop.
  rewrite (Run_gate t bc _ _ _ _ _ Hp), gate_fresh by exact Hfresh.
  rewrite (bind_inl _ _ _ _ _ _ Hloop), bind_call.
  set (h := fst (CurrentHeader bc w2)). set (w2' := snd (CurrentHeader bc w2)).
  destruct (sendSync_run t false (NumberU64 h) (NumberU64 (header t)) w2')
    as [w3 Hs].
  rewrite (bind_inl _ _ _ _ _ _ Hs). cbn.
  exists w3. unfold endEvents. rewrite app_nil_r. reflexivity.
Qed.

Lemma Run_end_event_after_loop_witness :
  exists w3,
    Run 3 Script.shardTask Script.chain Script.headless
    = (Return None, w3,
       [EvNeedSkip; EvCurrentHeader;
        EvSend (mkSyncingResult false (mkProgress 5 8));
        EvFindAncestor; EvCurrentHeader]
       ++ [EvGetHeaders (Script.hdr 5); EvValidateSeal (Script.hdr 6) false;
           EvGetBlocks [6]; EvAddBlock (mkBlock 6 None)]
       ++ EvCurrentHeader
       :: endEvents Script.shardTask (Script.hdr 5)).
Proof.
  apply (Run_end_event_after_loop 3 Script.shardTask Script.chain Script.headless
           Script.headless
           (snd (getHeaders Script.shardTask (Script.hdr 5) Script.headless))
           (Script.hdr 5) (Script.hdr 5)).
  - reflexivity.
  - vm_compute. discriminate.
  - reflexivity.
Defined.

(** ** The staleness gate, away from its boundary *)

(** X18: every head that is at or above the ancestor by at most
    [maxSyncStaleness] passes the gate: the next call of [Run] is the
    header request from the ancestor.  In particular a head equal to the
    ancestor passes for every [maxSyncStaleness], zero included. *)
Theorem staleness_within_limit {W} (fuel : nat) (t : task W) (bc : blockchain W)
    (w w1 : W) (anc cur : IHeader) (tr1 : list Event) :
  prologue t bc w = (inl (anc, cur), w1, tr1) ->
  NumberU64 anc <= NumberU64 cur <= NumberU64 anc + u64 (maxSyncStaleness t) ->
  exists e w2 tr2,
    Run (S fuel) t bc w = (e, w2, tr1 ++ EvGetHeaders anc :: tr2).
Proof.
  intros Hp Hd.
  pose proof (NumberU64_range cur) as Hc.
  pose proof (NumberU64_range anc) as Ha.
  rewrite (Run_gate t bc _ _ _ _ _ Hp), gate_fresh.
  2:{ rewrite u64_sub_le by lia. lia. }
  destruct (fetchLoop_starts t bc fuel anc w1) as (r & w2 & tr2 & Hf).
  destruct r as [u|e].
  - rewrite (bind_inl _ _ _ _ _ _ Hf).
    match goal with |- context [bind ?m ?k w2] =>
      destruct (bind m k w2) as [[[u'|e'] w3] t3] end;
      do 2 eexists; exists (tr2 ++ t3); reflexivity.
  - rewrite (bind_inr _ _ _ _ _ _ Hf). do 2 eexists; exists tr2; reflexivity.
Qed.

Lemma staleness_within_limit_witness :
  exists e w2 tr2,
    Run 1 (Script.peerTask "shard-1" 0 2 (Script.hdr 8) (Some Script.sink))
      Script.chain Script.behind
    = (e, w2,
       [EvNeedSkip; EvCurrentHeader;
        EvSend (mkSyncingResult false (mkProgress 5 8));
        EvFindAncestor; EvCurrentHeader]
       ++ EvGetHeaders (Script.hdr 5) :: tr2).
Proof.
  apply (staleness_within_limit 0
           (Script.peerTask "shard-1" 0 2 (Script.hdr 8) (Some Script.sink))
           Script.chain Script.behind Script.behind
           (Script.hdr 5) (Script.hdr 5)).
  - reflexivity.
  - vm_compute. split; discriminate.
Defined.

(** ** One block of a response *)

Lemma last_cons_default {A} (x d : A) (l : list A) :
  last (x :: l) d = last l x.
Proof.
  revert x d. induction l as [|y l IH]; intros x d; [reflexivity|].
  change (last (x :: y :: l) d) with (last (y :: l) d).
  rewrite (IH y d), (IH y x). reflexivity.
Qed.

Lemma last_app_default {A} (l1 l2 : list A) (d : A) :
  last (l1 ++ l2) d = last l2 (last l1 d).
Proof.
  revert d. induction l1 as [|x l1 IH]; intros d; [reflexivity|].
  rewrite <- app_comm_cons, !last_cons_default. apply IH.
Qed.

Lemma requests_app (a b : list Event) :
  requests (a ++ b) = requests a ++ requests b.
Proof.
  induction a as [|ev a IH]; [reflexivity|].
  destruct ev; cbn; rewrite IH; reflexivity.
Qed.

Section OneBlock.
Context {W : Type}.
Variables (t : task W) (bc : blockchain W).

Lemma progressStep_run blocks b c w :
  exists w',
    progressStep t blocks b c w
    = (inl tt, w',
       if Z.rem (c + 1) 100 =? 0
       then match send t with
            | Some _ => [EvSend (mkSyncingResult true
                           (mkProgress (BlockNumberU64 b)
                              (BlockNumberU64 (last blocks b))))]
            | None => []
            end
       else []).
Proof.
  unfold progressStep. destruct (Z.rem (c + 1) 100 =? 0).
  - apply sendSync_run.
  - exists w. reflexivity.
Qed.

Lemma progressStep_quiet blocks b c w :
  added (snd (progressStep t blocks b c w)) = [] /\
  requests (snd (progressStep t blocks b c w)) = [].
Proof.
  destruct (progressStep_run blocks b c w) as [w' ->]. cbn [snd].
  destruct (Z.rem (c + 1) 100 =? 0); [|split; reflexivity].
  destruct (send t); split; reflexivity.
Qed.

Lemma hookOutcome_quiet b w :
  added (snd (hookOutcome t bc b w)) = [] /\
  requests (snd (hookOutcome t bc b w)) = [] /\
  sent (snd (hookOutcome t bc b w)) = [].
Proof. unfold hookOutcome. destruct (syncBlock t); repeat split. Qed.

(** One turn of the loop over a response. *)
Lemma commitBlocks_cons blocks b rest c a w :
  commitBlocks t bc blocks (b :: rest) c a w =
  match hookOutcome t bc b w with
  | (Some e, w1, t1) => (inr (Return (Some e)), w1, t1)
  | (None, w1, t1) =>
      match fst (AddBlock bc b w1) with
      | Some e =>
          (inr (Return (Some e)), snd (AddBlock bc b w1), t1 ++ [EvAddBlock b])
      | None =>
          let s := progressStep t blocks b c (snd (AddBlock bc b w1)) in
          match commitBlocks t bc blocks rest (c + 1) (bHeader b)
                  (snd (fst s)) with
          | (r, w4, t4) => (r, w4, t1 ++ EvAddBlock b :: snd s ++ t4)
          end
      end
  end.
Proof.
  cbn [commitBlocks]. unfold hookOutcome.
  match goal with |- bind ?m ?k w = _ => set (K := k) end.
  assert (HK : forall u w1,
    K u w1 =
    match fst (AddBlock bc b w1) with
    | Some e =>
        (inr (Return (Some e)), snd (AddBlock bc b w1), [EvAddBlock b])
    | None =>
        let s := progressStep t blocks b c (snd (AddBlock bc b w1)) in
        match commitBlocks t bc blocks rest (c + 1) (bHeader b)
                (snd (fst s)) with
        | (r, w4, t4) => (r, w4, EvAddBlock b :: snd s ++ t4)
        end
    end).
  { intros u w1. unfold K. rewrite bind_call.
    destruct (fst (AddBlock bc b w1)) as [e|]; [reflexivity|].
    rewrite bind_ret. cbv zeta.
    destruct (progressStep_run blocks b c (snd (AddBlock bc b w1)))
      as [w3 Hs].
    unfold progressStep in *.
    rewrite (bind_inl _ _ _ _ _ _ Hs), Hs. cbn [fst snd].
    destruct (commitBlocks t bc blocks rest (c + 1) (bHeader b) w3)
      as [[r w4] t4]. reflexivity. }
  destruct (syncBlock t) as [hook|].
  - rewrite bind_assoc, bind_call.
    destruct (fst (hook bc b w)) as [e|]; [reflexivity|].
    rewrite bind_ret, HK.
    destruct (fst (AddBlock bc b (snd (hook bc b w)))); [reflexivity|].
    cbv zeta.
    destruct (commitBlocks t bc blocks rest (c + 1) (bHeader b) _)
      as [[r w4] t4]. reflexivity.
  - rewrite bind_ret, HK.
    destruct (fst (AddBlock bc b w)); [reflexivity|].
    cbv zeta.
    destruct (commitBlocks t bc blocks rest (c + 1) (bHeader b) _)
      as [[r w4] t4]. reflexivity.
Qed.

(** The loop over a response stops by a [return] or runs to its end; when
    it runs to its end every block was added, no block was requested and
    the ancestor is the header of the last block. *)
Lemma commitBlocks_normal blocks todo c a w :
  returned (fst (fst (commitBlocks t bc blocks todo c a w))) /\
  requests (snd (commitBlocks t bc blocks todo c a w)) = [] /\
  forall a',
    fst (fst (commitBlocks t bc blocks todo c a w)) = inl a' ->
    added (snd (commitBlocks t bc blocks todo c a w)) = todo /\
    a' = last (map bHeader todo) a.
Proof.
  revert c a w. induction todo as [|b rest IH]; intros c a w.
  - cbn. split; [exact I|]. split; [reflexivity|].
    intros a' H. inversion H. split; reflexivity.
  - rewrite commitBlocks_cons.
    destruct (hookOutcome_quiet b w) as (Ha1 & Hr1 & _).
    destruct (hookOutcome t bc b w) as [[[e|] w1] t1]; cbn [snd] in Ha1, Hr1.
    { cbn [fst snd]. split; [exact I|]. split; [exact Hr1|].
      intros a' H. discriminate H. }
    destruct (fst (AddBlock bc b w1)) as [e|].
    { cbn [fst snd]. split; [exact I|].
      split; [rewrite requests_app, Hr1; reflexivity|].
      intros a' H. discriminate H. }
    cbv zeta.
    destruct (progressStep_quiet blocks b c (snd (AddBlock bc b w1)))
      as [Ha3 Hr3].
    set (s := progressStep t blocks b c (snd (AddBlock bc b w1))) in *.
    specialize (IH (c + 1) (bHeader b) (snd (fst s))).
    destruct (commitBlocks t bc blocks rest (c + 1) (bHeader b) (snd (fst s)))
      as [[r w4] t4].
    cbn [fst snd] in *. destruct IH as (Hret & Hr4 & Hok).
    split; [exact Hret|]. split.
    + rewrite requests_app, Hr1. cbn [requests app].
      now rewrite requests_app, Hr3, Hr4.
    + intros a' H. destruct (Hok a' H) as [Hadd Hlast]. split.
      * rewrite added_app, Ha1. cbn [added app].
        now rewrite added_app, Ha3, Hadd.
      * rewrite Hlast. cbn [map]. now rewrite last_cons_default.
Qed.

End OneBlock.





(** ** The inner loop as a whole *)

Lemma len_nonneg {A} (l : list A) : 0 <= len l.
Proof. unfold len. lia. Qed.

Lemma len_app {A} (l1 l2 : list A) : len (l1 ++ l2) = len l1 + len l2.
Proof. unfold len. rewrite length_app. lia. Qed.

Lemma len_pos {A} (l : list A) : l <> [] -> 0 < len l.
Proof. destruct l; [contradiction|]. unfold len. cbn. lia. Qed.

Section WholeInnerLoop.
Context {W : Type}.
Variables (t : task W) (bc : blockchain W).

Lemma commitLoop_nil fuel a w :
  commitLoop fuel t bc [] a w = (inl a, w, []).
Proof. destruct fuel; reflexivity. Qed.

Lemma commitLoop_negative fuel hashlist a w :
  hashlist <> [] ->
  batchSize t < 0 ->
  commitLoop (S fuel) t bc hashlist a w = (inr Panic, w, []).
Proof.
  intros Hne Hbs. pose proof (len_pos hashlist Hne) as Hpos.
  cbn [commitLoop].
  destruct (Z.gtb_spec (len hashlist) 0); [|lia].
  destruct (Z.gtb_spec (len hashlist) (batchSize t)); [|lia].
  destruct (Z.ltb_spec (batchSize t) 0); [reflexivity|lia].
Qed.

Lemma requested_remaining hashlist :
  0 <= batchSize t ->
  requested t hashlist ++ remaining t hashlist = hashlist.
Proof.
  intros Hbs. unfold requested, remaining.
  destruct (len hashlist >? batchSize t).
  - apply firstn_skipn.
  - apply app_nil_r.
Qed.

Lemma remaining_shorter hashlist :
  0 < batchSize t ->
  hashlist <> [] ->
  (List.length (remaining t hashlist) < List.length hashlist)%nat.
Proof.
  intros Hbs Hne. pose proof (len_pos hashlist Hne) as Hpos.
  unfold remaining, len in *.
  destruct (Z.gtb_spec (Z.of_nat (List.length hashlist)) (batchSize t)).
  - rewrite length_skipn. lia.
  - cbn. lia.
Qed.

(** When the inner loop runs to its end, the ancestor it hands back is
    the header of the last block given to [AddBlock], or the ancestor it
    started from when there was none. *)
Lemma commitLoop_normal fuel hashlist a w a' w' tr :
  commitLoop fuel t bc hashlist a w = (inl a', w', tr) ->
  a' = last (map bHeader (added tr)) a.
Proof.
  revert hashlist a w a' w' tr.
  induction fuel as [|fuel IH]; intros hashlist a w a' w' tr H.
  - destruct hashlist; [|discriminate H].
    cbn in H. now inversion H.
  - destruct hashlist as [|x hashlist].
    { rewrite commitLoop_nil in H. now inversion H. }
    destruct (Z_lt_le_dec (batchSize t) 0) as [Hneg|Hbs].
    { rewrite commitLoop_negative in H by (assumption || discriminate).
      discriminate H. }
    rewrite commitLoop_step in H by (assumption || discriminate).
    cbv zeta in H.
    destruct (getBlocks t (requested t (x :: hashlist)) w)
      as [[blocks [e|]] w1]; cbn [fst snd] in H; [discriminate H|].
    destruct (len blocks =? len (requested t (x :: hashlist)));
      [|discriminate H].
    destruct (commitBlocks_normal t bc blocks blocks 0 a w1) as (_ & _ & Hok).
    destruct (commitBlocks t bc blocks blocks 0 a w1) as [[[a1|e] w2] t2] eqn:Hc.
    + destruct (Hok a1 eq_refl) as [Hadd Hlast]. cbn [snd] in Hadd.
      rewrite (bind_inl _ _ _ _ _ _ Hc) in H.
      destruct (commitLoop fuel t bc (remaining t (x :: hashlist)) a1 w2)
        as [[r w3] t3] eqn:Hl.
      inversion H; subst r w3 tr. 
      apply IH in Hl. cbn [added]. rewrite added_app, map_app, last_app_default.
      now rewrite Hadd, <- Hlast.
    + rewrite (bind_inr _ _ _ _ _ _ Hc) in H. discriminate H.
Qed.

(** With a positive batch size the inner loop comes to a [return] within
    as many turns as there are hashes. *)
Lemma commitLoop_returns fuel hashlist a w :
  0 < batchSize t ->
  (List.length hashlist <= fuel)%nat ->
  returned (fst (fst (commitLoop fuel t bc hashlist a w))).
Proof.
  intros Hbs. revert hashlist a w.
  induction fuel as [|fuel IH]; intros hashlist a w Hfuel.
  - destruct hashlist; [exact I|]. cbn in Hfuel. lia.
  - destruct hashlist as [|x hashlist].
    { rewrite commitLoop_nil. exact I. }
    rewrite commitLoop_step by (lia || discriminate). cbv zeta.
    destruct (getBlocks t (requested t (x :: hashlist)) w)
      as [[blocks [e|]] w1]; cbn [fst snd]; [exact I|].
    destruct (len blocks =? len (requested t (x :: hashlist))); [|exact I].
    destruct (commitBlocks_normal t bc blocks blocks 0 a w1) as (Hret & _ & _).
    destruct (commitBlocks t bc blocks blocks 0 a w1) as [[[a1|e] w2] t2] eqn:Hc.
    + rewrite (bind_inl _ _ _ _ _ _ Hc).
      assert (Hshort : (List.length (remaining t (x :: hashlist)) <= fuel)%nat).
      { pose proof (remaining_shorter (x :: hashlist) Hbs) as Hs.
        assert (x :: hashlist <> []) as Hne by discriminate.
        specialize (Hs Hne). lia. }
      specialize (IH (remaining t (x :: hashlist)) a1 w2 Hshort).
      destruct (commitLoop fuel t bc (remaining t (x :: hashlist)) a1 w2)
        as [[r w3] t3]. exact IH.
    + rewrite (bind_inr _ _ _ _ _ _ Hc). exact Hret.
Qed.
End WholeInnerLoop.

(** X7: with a positive [batchSize] the inner loop ends within one turn
    per hash, whatever the peer, the hook and the chain answer: every turn
    takes at least one hash off the list, so with fuel for one turn per
    hash the loop is never still running when the fuel is spent. *)
Theorem commitLoop_terminates {W} (fuel : nat) (t : task W) (bc : blockchain W)
    (hashlist : list common_Hash) (a : option IHeader) (w : W) :
  0 < batchSize t ->
  (List.length hashlist <= fuel)%nat ->
  fst (fst (commitLoop fuel t bc hashlist a w)) <> inr OutOfFuel.
Proof.
  intros Hbs Hfuel.
  pose proof (commitLoop_returns t bc fuel hashlist a w Hbs Hfuel) as H.
  intros Hout. rewrite Hout in H. exact H.
Qed.

Lemma commitLoop_terminates_witness :
  fst (fst (commitLoop 3 Script.shardTask Script.chain [6; 7; 8]
              (Some (Script.hdr 5)) Script.lossy)) <> inr OutOfFuel.
Proof.
  apply (commitLoop_terminates 3 Script.shardTask Script.chain [6; 7; 8]
           (Some (Script.hdr 5)) Script.lossy).
  - cbn. lia.
  - cbn. lia.
Defined.

(** X19: when the inner loop has gone through an accepted header batch,
    the ancestor becomes the [IHeader()] of the last block given to
    [AddBlock] (it stays what it was if no block was added): if that is a
    header, the next call of [Run] is the header request from it, and if
    it is nil the loop ends there. *)
Theorem next_request_from_last_block {W} (fuel : nat) (t : task W)
    (bc : blockchain W) (anc : IHeader) (B : list IHeader) (w w1 w2 w3 : W)
    (tr t3 : list Event) (a' : option IHeader) :
  getHeaders t anc w = ((B, None), w1) ->
  B <> [] ->
  validateHeaderList t bc B w1 = (inl None, w2, tr) ->
  commitLoop (S (S fuel)) t bc (map Hash B) (Some anc) w2 = (inl a', w3, t3) ->
  a' = last (map bHeader (added t3)) (Some anc) /\
  match a' with
  | Some next =>
      exists r w4 t4,
        fetchLoop (S (S fuel)) t bc (Some anc) w
        = (r, w4, EvGetHeaders anc :: tr ++ t3 ++ EvGetHeaders next :: t4)
  | None =>
      fetchLoop (S (S fuel)) t bc (Some anc) w
      = (inl tt, w3, EvGetHeaders anc :: tr ++ t3)
  end.
Proof.
  intros Hget Hne Hv Hrun. split; [now apply commitLoop_normal in Hrun|].
  remember (S fuel) as n eqn:Hn.
  assert (Hstep : fetchLoop (S n) t bc (Some anc) w =
                  match fetchLoop n t bc a' w3 with
                  | (r, w4, t4) => (r, w4, EvGetHeaders anc :: tr ++ t3 ++ t4)
                  end).
  { cbn [fetchLoop]. rewrite bind_call, Hget. cbn [fst snd].
    destruct B as [|h B]; [contradiction|].
    change (len (h :: B) =? 0) with false. cbv iota.
    rewrite (bind_inl _ _ _ _ _ _ Hv), (bind_inl _ _ _ _ _ _ Hrun).
    destruct (fetchLoop n t bc a' w3) as [[r w4] t4]. reflexivity. }
  rewrite Hstep. subst n. destruct a' as [next|].
  - destruct (fetchLoop_starts t bc fuel next w3) as (r & w4 & t4 & ->).
    exists r, w4, t4. reflexivity.
  - cbn [fetchLoop ret]. now rewrite app_nil_r.
Qed.

Lemma next_request_from_last_block_witness :
  exists r w4 t4,
    fetchLoop 2 Script.shardTask Script.chain (Some (Script.hdr 5))
      Script.behind
    = (r, w4,
       EvGetHeaders (Script.hdr 5)
       :: sealEvents (Script.hdrs 5 3)
          ++ [EvGetBlocks [6; 7]; EvAddBlock (Script.blk 6);
              EvAddBlock (Script.blk 7); EvGetBlocks [8];
              EvAddBlock (Script.blk 8)]
          ++ EvGetHeaders (Script.hdr 8) :: t4).
Proof.
  apply (next_request_from_last_block 0 Script.shardTask Script.chain
           (Script.hdr 5) (Script.hdrs 5 3) Script.behind
           (snd (getHeaders Script.shardTask (Script.hdr 5) Script.behind))
           (snd (getHeaders Script.shardTask (Script.hdr 5) Script.behind))
           (snd (fst (commitLoop 2 Script.shardTask Script.chain [6; 7; 8]
                        (Some (Script.hdr 5))
                        (snd (getHeaders Script.shardTask (Script.hdr 5)
                                Script.behind)))))
           (sealEvents (Script.hdrs 5 3))
           [EvGetBlocks [6; 7]; EvAddBlock (Script.blk 6);
            EvAddBlock (Script.blk 7); EvGetBlocks [8];
            EvAddBlock (Script.blk 8)]
           (Some (Script.hdr 8))).
  - reflexivity.
  - discriminate.
  - reflexivity.
  - reflexivity.
Defined.

Section HonestPeer.
Context {W : Type}.
Variables (t : task W) (bc : blockchain W).
Hypothesis Hbs : 0 < batchSize t.
Hypothesis Hfull : answersInFull t.
Hypothesis Hpass : allCommitsPass t bc.

Lemma chunk_count (n m : Z) :
  0 < n ->
  m = n - Z.min (batchSize t) n ->
  1 + (m + batchSize t - 1) / batchSize t = (n + batchSize t - 1) / batchSize t.
Proof.
  intros Hn Hm.
  destruct (Z_lt_le_dec (batchSize t) n) as [Hgt|Hle].
  - rewrite Z.min_l in Hm by lia. subst m.
    replace (n + batchSize t - 1)
      with (n - batchSize t + batchSize t - 1 + 1 * batchSize t) by lia.
    rewrite Z.div_add by lia. lia.
  - rewrite Z.min_r in Hm by lia. subst m.
    replace (n - n + batchSize t - 1) with (batchSize t - 1) by lia.
    rewrite Z.div_small by lia.
    assert (H1 : (n + batchSize t - 1) / batchSize t = 1).
    { symmetry. apply Z.div_unique with (r := n - 1); lia. }
    lia.
Qed.

(** X6: with a positive [batchSize], a peer that answers every block
    request in full and blocks that all commit, the inner loop goes through
    the whole hash list: the requests it makes, put end to end, are the
    hash list; each asks for at least one and at most [batchSize] hashes;
    there are ceil(len / batchSize) of them; and as many blocks are added
    as there are hashes. *)
Theorem commitLoop_covers_hashlist (fuel : nat) (hashlist : list common_Hash)
    (a : option IHeader) (w : W) :
  (List.length hashlist <= fuel)%nat ->
  exists a' w' tr,
    commitLoop fuel t bc hashlist a w = (inl a', w', tr) /\
    List.concat (requests tr) = hashlist /\
    Forall (fun r => 0 < len r <= batchSize t) (requests tr) /\
    len (added tr) = len hashlist /\
    Z.of_nat (List.length (requests tr))
    = (len hashlist + batchSize t - 1) / batchSize t.
Proof.
  revert hashlist a w.
  induction fuel as [|fuel IH]; intros hashlist a w Hfuel.
  - destruct hashlist; [|cbn in Hfuel; lia].
    exists a, w, []. repeat split; try constructor.
    cbn. rewrite Z.div_small by lia. reflexivity.
  - destruct hashlist as [|x l].
    { rewrite commitLoop_nil. exists a, w, []. repeat split; try constructor.
      cbn. rewrite Z.div_small by lia. reflexivity. }
    set (hashlist := x :: l) in *.
    assert (Hne : hashlist <> []) by discriminate.
    pose proof (len_pos hashlist Hne) as Hpos.
    pose proof (len_requested t hashlist (Z.lt_le_incl _ _ Hbs)) as Hreq.
    pose proof (requested_remaining t hashlist (Z.lt_le_incl _ _ Hbs)) as Hsplit.
    assert (Hrem : len (remaining t hashlist)
                   = len hashlist - Z.min (batchSize t) (len hashlist)).
    { rewrite <- Hsplit at 2. rewrite len_app, Hreq. lia. }
    rewrite commitLoop_step by (lia || assumption). cbv zeta.
    destruct (Hfull (requested t hashlist) w) as [Herr Hlen].
    destruct (getBlocks t (requested t hashlist) w) as [[blocks e] w1].
    cbn [fst snd] in *. subst e. rewrite Hlen, Z.eqb_refl.
    destruct (commitBlocks_pass t bc blocks blocks 0 a w1 (Hpass blocks))
      as (a1 & w2 & tr1 & Hrun & Hadd & _).
    change (Z.of_nat 0) with 0 in Hrun.
    destruct (commitBlocks_normal t bc blocks blocks 0 a w1) as (_ & Hr1 & _).
    rewrite Hrun in Hr1. cbn [snd] in Hr1.
    assert (Hshort : (List.length (remaining t hashlist) <= fuel)%nat).
    { pose proof (remaining_shorter t hashlist Hbs Hne). lia. }
    destruct (IH (remaining t hashlist) a1 w2 Hshort)
      as (a' & w' & tr3 & Hl & Hcat & Hall & Hadd3 & Hcount).
    exists a', w', (EvGetBlocks (requested t hashlist) :: tr1 ++ tr3).
    split; [rewrite (bind_inl _ _ _ _ _ _ Hrun), Hl; reflexivity|].
    assert (Hrq : requests (EvGetBlocks (requested t hashlist) :: tr1 ++ tr3)
                  = requested t hashlist :: requests tr3).
    { cbn [requests]. now rewrite requests_app, Hr1. }
    rewrite Hrq. split; [cbn [List.concat]; now rewrite Hcat|].
    split; [constructor; [lia|exact Hall]|].
    split.
    + cbn [added]. rewrite added_app, Hadd, len_app, Hadd3, Hlen. lia.
    + cbn [List.length]. rewrite Nat2Z.inj_succ, Hcount.
      rewrite <- (chunk_count (len hashlist) (len (remaining t hashlist)));
        lia.
Qed.
End HonestPeer.

Lemma commitLoop_covers_hashlist_witness :
  exists a' w' tr,
    commitLoop 50 (Peer.honestTask "shard-1" 100 10 (Script.hdr 55) None)
      Script.chain (map Hash (Script.hdrs 5 50)) (Some (Script.hdr 5))
      Script.behind = (inl a', w', tr) /\
    List.concat (requests tr) = map Hash (Script.hdrs 5 50) /\
    Z.of_nat (List.length (requests tr)) = 5.
Proof.
  assert (Hbs : 0 < batchSize
                      (Peer.honestTask "shard-1" 100 10 (Script.hdr 55) None))
    by (cbn; lia).
  assert (Hfull : answersInFull
                    (Peer.honestTask "shard-1" 100 10 (Script.hdr 55) None)).
  { intros hs w0. split; [reflexivity|].
    cbn. unfold len. now rewrite length_map. }
  assert (Hpass : allCommitsPass
                    (Peer.honestTask "shard-1" 100 10 (Script.hdr 55) None)
                    Script.chain).
  { intros l. split.
    - intros b w0 _. reflexivity.
    - intros hook b w0 Hh. discriminate Hh. }
  assert (Hfuel : (List.length (map Hash (Script.hdrs 5 50)) <= 50)%nat)
    by (vm_compute; apply le_n).
  destruct (commitLoop_covers_hashlist
              (Peer.honestTask "shard-1" 100 10 (Script.hdr 55) None)
              Script.chain Hbs Hfull Hpass 50 (map Hash (Script.hdrs 5 50))
              (Some (Script.hdr 5)) Script.behind Hfuel)
    as (a' & w' & tr & Hrun & Hcat & _ & _ & Hcount).
  exists a', w', tr. split; [exact Hrun|]. split; [exact Hcat|].
  rewrite Hcount. reflexivity.
Defined.

(** X8: with [batchSize] zero and a peer that answers the empty request
    with no block, the inner loop never ends on a non-empty hash list:
    every turn asks for no hash, commits nothing and leaves the hash list
    as it was, so whatever the fuel the loop is still running when it is
    spent, having made one empty request per turn. *)
Theorem commitLoop_zero_batch_hangs {W} (fuel : nat) (t : task W)
    (bc : blockchain W) (hashlist : list common_Hash) (a : option IHeader)
    (w : W) :
  batchSize t = 0 ->
  hashlist <> [] ->
  (forall w0, fst (getBlocks t [] w0) = ([], None)) ->
  exists w',
    commitLoop fuel t bc hashlist a w
    = (inr OutOfFuel, w', repeat (EvGetBlocks []) fuel).
Proof.
  intros Hbs Hne Hget. revert w.
  pose proof (len_pos hashlist Hne) as Hpos.
  assert (Hreq : requested t hashlist = []).
  { unfold requested. rewrite Hbs.
    destruct (Z.gtb_spec (len hashlist) 0); [reflexivity|lia]. }
  assert (Hrem : remaining t hashlist = hashlist).
  { unfold remaining. rewrite Hbs.
    destruct (Z.gtb_spec (len hashlist) 0); [reflexivity|lia]. }
  induction fuel as [|fuel IH]; intros w.
  - exists w. destruct hashlist; [contradiction|reflexivity].
  - rewrite commitLoop_step by (assumption || lia). cbv zeta.
    rewrite Hreq, Hrem. specialize (Hget w).
    destruct (getBlocks t [] w) as [[blocks e] w1]. cbn [fst snd] in *.
    inversion Hget; subst blocks e.
    change (len (@nil IBlock) =? len (@nil common_Hash)) with true. cbv iota.
    cbn [commitBlocks]. rewrite bind_ret. destruct (IH w1) as [w' ->].
    exists w'. reflexivity.
Qed.

Lemma commitLoop_zero_batch_hangs_witness :
  exists w',
    commitLoop 4 (Script.peerTask "shard-1" 100 0 (Script.hdr 8) None)
      Script.chain [6; 7; 8] (Some (Script.hdr 5)) Script.behind
    = (inr OutOfFuel, w', repeat (EvGetBlocks []) 4).
Proof.
  apply (commitLoop_zero_batch_hangs 4
           (Script.peerTask "shard-1" 100 0 (Script.hdr 8) None)
           Script.chain [6; 7; 8] (Some (Script.hdr 5)) Script.behind).
  - reflexivity.
  - discriminate.
  - intros w0. reflexivity.
Defined.

(** X9: with a negative [batchSize], [Run] panics on the first header
    batch the validator accepts: the slice [hashlist[:batchSize]] is out
    of range, and the panic comes after the seal checks and before any
    block request. *)
Theorem fetchLoop_negative_batch_panics {W} (fuel : nat) (t : task W)
    (bc : blockchain W) (anc : IHeader) (B : list IHeader) (w w1 w2 : W)
    (tr : list Event) :
  getHeaders t anc w = ((B, None), w1) ->
  B <> [] ->
  validateHeaderList t bc B w1 = (inl None, w2, tr) ->
  batchSize t < 0 ->
  fetchLoop (S fuel) t bc (Some anc) w
  = (inr Panic, w2, EvGetHeaders anc :: tr).
Proof.
  intros Hget Hne Hv Hbs. cbn [fetchLoop]. rewrite bind_call, Hget.
  cbn [fst snd].
  destruct B as [|h B]; [contradiction|].
  change (len (h :: B) =? 0) with false. cbv iota.
  rewrite (bind_inl _ _ _ _ _ _ Hv).
  assert (Hc : commitLoop (S fuel) t bc (map Hash (h :: B)) (Some anc) w2
               = (inr Panic, w2, [])).
  { apply commitLoop_negative; [discriminate|assumption]. }
  rewrite (bind_inr _ _ _ _ _ _ Hc). now rewrite app_nil_r.
Qed.

Lemma fetchLoop_negative_batch_panics_witness :
  fetchLoop 1 (Script.peerTask "shard-1" 100 (-1) (Script.hdr 8) None)
    Script.chain (Some (Script.hdr 5)) Script.behind
  = (inr Panic,
     snd (getHeaders Script.shardTask (Script.hdr 5) Script.behind),
     EvGetHeaders (Script.hdr 5) :: sealEvents (Script.hdrs 5 3)).
Proof.
  apply (fetchLoop_negative_batch_panics 0
           (Script.peerTask "shard-1" 100 (-1) (Script.hdr 8) None)
           Script.chain (Script.hdr 5) (Script.hdrs 5 3) Script.behind
           (snd (getHeaders Script.shardTask (Script.hdr 5) Script.behind))).
  - reflexivity.
  - discriminate.
  - reflexivity.
  - cbn. lia.
Defined.

(** ** Where the header validator stops *)

Lemma checkLink_error (p h : IHeader) :
  ~ extends p h -> checkLink p h = Some (linkError p h).
Proof.
  intros Hn. unfold checkLink, linkError.
  destruct (Z.eqb_spec (NumberU64 h) (u64_add (NumberU64 p) 1)) as [Hnum|Hnum];
    [|reflexivity].
  destruct (Z.eqb_spec (Hash p) (GetParentHash h)) as [Hh|Hh]; [|reflexivity].
  exfalso. apply Hn. split; assumption.
Qed.

Lemma sealEvents_app (a b : list IHeader) :
  sealEvents (a ++ b) = sealEvents a ++ sealEvents b.
Proof. unfold sealEvents. apply map_app. Qed.

Section ValidatorStops.
Context {W : Type}.
Variable bc : blockchain W.

Lemma validateFrom_link_error pre p h post e prev w :
  linkedFrom prev (pre ++ [p]) ->
  sealsPass bc (pre ++ [p]) ->
  checkLink p h = Some e ->
  exists w',
    validateFrom bc prev (pre ++ p :: h :: post) w
    = (inl (Some e), w', sealEvents (pre ++ [p])).
Proof.
  intros HB Hseal He. revert prev w HB Hseal.
  induction pre as [|x pre IH]; intros prev w HB Hseal.
  - cbn [app] in *. apply linkedFrom_cons in HB as [Hx _].
    cbn [validateFrom].
    assert (Hl : match prev with Some q => checkLink q p | None => None end
                 = None).
    { destruct prev as [q|]; [now apply checkLink_None|reflexivity]. }
    rewrite Hl, bind_call, (Hseal p w (or_introl eq_refl)), He.
    eexists. reflexivity.
  - cbn [app] in *. apply linkedFrom_cons in HB as [Hx HB].
    cbn [validateFrom].
    assert (Hl : match prev with Some q => checkLink q x | None => None end
                 = None).
    { destruct prev as [q|]; [now apply checkLink_None|reflexivity]. }
    rewrite Hl, bind_call, (Hseal x w (or_introl eq_refl)).
    destruct (IH (Some x) (snd (ValidateSeal bc x false w)) HB
                (fun h0 w0 Hin => Hseal h0 w0 (or_intror Hin))) as [w' ->].
    exists w'. reflexivity.
Qed.

Lemma validateFrom_seal_error pre h post e prev w :
  linkedFrom prev (pre ++ [h]) ->
  sealsPass bc pre ->
  (forall w0, fst (ValidateSeal bc h false w0) = Some e) ->
  exists w',
    validateFrom bc prev (pre ++ h :: post) w
    = (inl (Some e), w', sealEvents (pre ++ [h])).
Proof.
  intros HB Hseal He. revert prev w HB Hseal.
  induction pre as [|x pre IH]; intros prev w HB Hseal.
  - cbn [app] in *. apply linkedFrom_cons in HB as [Hx _].
    cbn [validateFrom].
    assert (Hl : match prev with Some q => checkLink q h | None => None end
                 = None).
    { destruct prev as [q|]; [now apply checkLink_None|reflexivity]. }
    rewrite Hl, bind_call, He. eexists. reflexivity.
  - cbn [app] in *. apply linkedFrom_cons in HB as [Hx HB].
    cbn [validateFrom].
    assert (Hl : match prev with Some q => checkLink q x | None => None end
                 = None).
    { destruct prev as [q|]; [now apply checkLink_None|reflexivity]. }
    rewrite Hl, bind_call, (Hseal x w (or_introl eq_refl)).
    destruct (IH (Some x) (snd (ValidateSeal bc x false w)) HB
                (fun h0 w0 Hin => Hseal h0 w0 (or_intror Hin))) as [w' ->].
    exists w'. reflexivity.
Qed.
End ValidatorStops.

(** X10: the validator stops at the first pair that is not contiguous and
    linked.  If the headers up to [p] are linked and pass the seal check
    and [h] does not extend [p], the verdict is "descending order" when the
    number is wrong (whatever the parent hash) and "not linked" when only
    the parent hash is wrong; the seal validator has been called on the
    headers up to [p] and is not called on [h] or on any later header. *)
Theorem validateHeaderList_stops_at_break {W} (t : task W) (bc : blockchain W)
    (pre post : list IHeader) (p h : IHeader) (w : W) :
  linked (pre ++ [p]) ->
  sealsPass bc (pre ++ [p]) ->
  ~ extends p h ->
  exists w',
    validateHeaderList t bc (pre ++ p :: h :: post) w
    = (inl (Some (linkError p h)), w', sealEvents (pre ++ [p])).
Proof.
  intros HB Hseal Hn. unfold validateHeaderList.
  apply validateFrom_link_error; [exact HB|exact Hseal|].
  now apply checkLink_error.
Qed.

Lemma validateHeaderList_stops_at_break_witness :
  exists w',
    validateHeaderList Script.shardTask Script.chain
      ([Script.hdr 6] ++ Script.hdr 7 :: mkHeader 9 9 6 :: [Script.hdr 10])
      Script.behind
    = (inl (Some ErrDescendingOrder), w',
       sealEvents ([Script.hdr 6] ++ [Script.hdr 7])).
Proof.
  apply (validateHeaderList_stops_at_break Script.shardTask Script.chain
           [Script.hdr 6] [Script.hdr 10] (Script.hdr 7) (mkHeader 9 9 6)
           Script.behind).
  - apply linked_cons. split; [split; reflexivity|apply linked_one].
  - intros h w0 _. reflexivity.
  - intros [Hn _]. discriminate Hn.
Defined.

(** X11: an error of the seal validator is returned as it is.  If the
    headers up to and including [h] are linked, those before [h] pass the
    seal check and [h] does not, the verdict is the seal validator's error
    on [h], and no later header is looked at. *)
Theorem validateHeaderList_seal_error {W} (t : task W) (bc : blockchain W)
    (pre post : list IHeader) (h : IHeader) (e : error) (w : W) :
  linked (pre ++ [h]) ->
  sealsPass bc pre ->
  (forall w0, fst (ValidateSeal bc h false w0) = Some e) ->
  exists w',
    validateHeaderList t bc (pre ++ h :: post) w
    = (inl (Some e), w', sealEvents (pre ++ [h])).
Proof.
  intros HB Hseal He. unfold validateHeaderList.
  now apply validateFrom_seal_error.
Qed.

Lemma validateHeaderList_seal_error_witness :
  exists w',
    validateHeaderList Script.shardTask (Script.chainWith [7] [])
      ([Script.hdr 6] ++ Script.hdr 7 :: [Script.hdr 8]) Script.behind
    = (inl (Some (ErrExternal "bad seal")), w',
       sealEvents ([Script.hdr 6] ++ [Script.hdr 7])).
Proof.
  apply (validateHeaderList_seal_error Script.shardTask
           (Script.chainWith [7] []) [Script.hdr 6] [Script.hdr 8]
           (Script.hdr 7) (ErrExternal "bad seal") Script.behind).
  - apply linked_cons. split; [split; reflexivity|apply linked_one].
  - intros h w0 [<-|[]]. reflexivity.
  - intros w0. reflexivity.
Defined.

(** X12: the contiguity check adds 1 in [uint64]: after a header numbered
    2^64 - 1 the validator accepts a header numbered 0 (and no other
    number), when the parent hash fits and the seals pass. *)
Theorem contiguity_wraps_at_max {W} (t : task W) (bc : blockchain W)
    (p h : IHeader) (w : W) :
  NumberU64 p = 2 ^ 64 - 1 ->
  Hash p = GetParentHash h ->
  sealsPass bc [p; h] ->
  (NumberU64 h = 0 ->
   exists w',
     validateHeaderList t bc [p; h] w = (inl None, w', sealEvents [p; h])) /\
  (NumberU64 h <> 0 ->
   exists w',
     validateHeaderList t bc [p; h] w
     = (inl (Some ErrDescendingOrder), w', sealEvents [p])).
Proof.
  intros Hp Hh Hseal.
  assert (Hnext : u64_add (NumberU64 p) 1 = 0).
  { unfold u64_add, u64. rewrite Hp. reflexivity. }
  split; intros Hn.
  - unfold validateHeaderList. apply validateFrom_pass; [|exact Hseal].
    apply linked_cons. split; [|apply linked_one].
    split; [congruence|exact Hh].
  - assert (Hx : ~ extends p h).
    { intros [Hnum _]. congruence. }
    destruct (validateFrom_link_error bc [] p h [] (linkError p h) None w)
      as [w' Hv].
    + apply linked_one.
    + intros x w0 Hin. apply Hseal. destruct Hin as [<-|[]]. now left.
    + now apply checkLink_error.
    + exists w'. unfold validateHeaderList. cbn [app] in Hv. rewrite Hv.
      unfold linkError.
      destruct (Z.eqb_spec (NumberU64 h) (u64_add (NumberU64 p) 1));
        [congruence|reflexivity].
Qed.

Lemma contiguity_wraps_at_max_witness :
  exists w',
    validateHeaderList Script.shardTask Script.chain
      [mkHeader (2 ^ 64 - 1) 1 0; mkHeader 0 2 1] Script.behind
    = (inl None, w',
       sealEvents [mkHeader (2 ^ 64 - 1) 1 0; mkHeader 0 2 1]).
Proof.
  apply (contiguity_wraps_at_max Script.shardTask Script.chain
           (mkHeader (2 ^ 64 - 1) 1 0) (mkHeader 0 2 1) Script.behind).
  - reflexivity.
  - reflexivity.
  - intros h w0 _. reflexivity.
  - reflexivity.
Defined.

(** ** The progress events of a whole run *)

Section QuietLoops.
Context {W : Type}.
Variables (t : task W) (bc : blockchain W).

Lemma commitBlocks_sent_none blocks todo c a w :
  send t = None \/ (0 <= c /\ c + len todo < 100) ->
  sent (snd (commitBlocks t bc blocks todo c a w)) = [].
Proof.
  revert c a w. induction todo as [|b rest IH]; intros c a w Hq.
  - reflexivity.
  - rewrite commitBlocks_cons.
    destruct (hookOutcome_quiet t bc b w) as (_ & _ & Hs1).
    destruct (hookOutcome t bc b w) as [[[e|] w1] t1]; cbn [snd] in Hs1;
      [exact Hs1|].
    destruct (fst (AddBlock bc b w1)) as [e|].
    { cbn [snd]. rewrite sent_app, Hs1. reflexivity. }
    cbv zeta.
    assert (Hs3 : sent (snd (progressStep t blocks b c
                               (snd (AddBlock bc b w1)))) = []).
    { destruct (progressStep_run t blocks b c (snd (AddBlock bc b w1)))
        as [w3 ->]. cbn [snd].
      destruct Hq as [Hnone|[Hc Hlen]].
      - rewrite Hnone. now destruct (Z.rem (c + 1) 100 =? 0).
      - assert (Hl : len (b :: rest) = 1 + len rest)
          by (unfold len; cbn [List.length]; lia).
        pose proof (len_nonneg rest).
        rewrite Z.rem_small by lia.
        destruct (Z.eqb_spec (c + 1) 0); [lia|reflexivity]. }
    set (s := progressStep t blocks b c (snd (AddBlock bc b w1))) in *.
    assert (Hq' : send t = None \/ (0 <= c + 1 /\ c + 1 + len rest < 100)).
    { destruct Hq as [Hnone|[Hc Hlen]]; [now left|right].
      assert (Hl : len (b :: rest) = 1 + len rest)
        by (unfold len; cbn [List.length]; lia).
      lia. }
    specialize (IH (c + 1) (bHeader b) (snd (fst s)) Hq').
    destruct (commitBlocks t bc blocks rest (c + 1) (bHeader b) (snd (fst s)))
      as [[r w4] t4].
    cbn [snd] in *. rewrite sent_app, Hs1. cbn [app sent].
    now rewrite sent_app, Hs3, IH.
Qed.

Hypothesis Hq : send t = None \/ batchSize t < 100.

Lemma commitLoop_sent_none fuel hashlist a w :
  sent (snd (commitLoop fuel t bc hashlist a w)) = [].
Proof.
  revert hashlist a w.
  induction fuel as [|fuel IH]; intros hashlist a w.
  - destruct hashlist; reflexivity.
  - destruct hashlist as [|x l].
    { now rewrite commitLoop_nil. }
    destruct (Z_lt_le_dec (batchSize t) 0) as [Hneg|Hbs].
    { rewrite commitLoop_negative by (assumption || discriminate).
      reflexivity. }
    rewrite commitLoop_step by (assumption || discriminate). cbv zeta.
    pose proof (len_requested t (x :: l) Hbs) as Hreq.
    destruct (getBlocks t (requested t (x :: l)) w) as [[blocks [e|]] w1];
      cbn [fst snd]; [reflexivity|].
    destruct (Z.eqb_spec (len blocks) (len (requested t (x :: l))))
      as [Hlen|Hlen]; [|reflexivity].
    assert (Hc : sent (snd (commitBlocks t bc blocks blocks 0 a w1)) = []).
    { apply commitBlocks_sent_none.
      destruct Hq as [Hnone|Hsmall]; [now left|right]. lia. }
    destruct (commitBlocks t bc blocks blocks 0 a w1) as [[[a1|e] w2] t2] eqn:Hrun;
      cbn [snd] in Hc.
    + rewrite (bind_inl _ _ _ _ _ _ Hrun).
      specialize (IH (remaining t (x :: l)) a1 w2).
      destruct (commitLoop fuel t bc (remaining t (x :: l)) a1 w2)
        as [[r w3] t3].
      cbn [snd] in IH. cbn [snd sent]. now rewrite sent_app, Hc, IH.
    + rewrite (bind_inr _ _ _ _ _ _ Hrun). exact Hc.
Qed.

Lemma sealEvents_sent B : sent (sealEvents B) = [].
Proof. induction B as [|h B IH]; [reflexivity|exact IH]. Qed.

Lemma fetchLoop_sent_none fuel a w :
  sent (snd (fetchLoop fuel t bc a w)) = [].
Proof.
  revert a w. induction fuel as [|fuel IH]; intros a w.
  - destruct a; reflexivity.
  - destruct a as [anc|]; [|reflexivity].
    cbn [fetchLoop]. rewrite bind_call.
    destruct (getHeaders t anc w) as [[B [e|]] w1]; cbn [fst snd];
      [reflexivity|].
    destruct (len B =? 0); [reflexivity|].
    unfold validateHeaderList.
    destruct (validateFrom_events bc None B w1) as (v & w2 & k & Hv).
    rewrite (bind_inl _ _ _ _ _ _ Hv).
    pose proof (sealEvents_sent (firstn k B)) as Hs.
    destruct v as [e|].
    { cbn. now rewrite app_nil_r. }
    pose proof (commitLoop_sent_none (S fuel) (map Hash B) (Some anc) w2) as Hc.
    destruct (commitLoop (S fuel) t bc (map Hash B) (Some anc) w2)
      as [[[a1|e] w3] t3] eqn:Hrun; cbn [snd] in Hc.
    + rewrite (bind_inl _ _ _ _ _ _ Hrun).
      specialize (IH a1 w3).
      destruct (fetchLoop fuel t bc a1 w3) as [[r w4] t4].
      cbn [snd] in IH. cbn [snd sent].
      now rewrite sent_app, Hs, sent_app, Hc, IH.
    + rewrite (bind_inr _ _ _ _ _ _ Hrun).
      cbn [snd sent]. now rewrite sent_app, Hs, Hc.
Qed.

Lemma statusSent_of_events h :
  sent (startEvents t h) = statusSent t [h] /\
  sent (endEvents t h) = statusSent t [h].
Proof.
  unfold startEvents, endEvents, statusSent. destruct (send t); split; reflexivity.
Qed.

Lemma statusSent_app hs1 hs2 :
  statusSent t hs1 ++ statusSent t hs2 = statusSent t (hs1 ++ hs2).
Proof.
  unfold statusSent. destruct (send t); [|reflexivity].
  now rewrite map_app.
Qed.

Lemma syncFrom_sent fuel anc w :
  exists hs,
    (List.length hs <= 1)%nat /\
    sent (snd (syncFrom fuel t bc anc w)) = statusSent t hs.
Proof.
  unfold syncFrom. rewrite bind_call.
  set (w1 := snd (CurrentHeader bc w)).
  destruct (_ >? _).
  - rewrite bind_call. exists []. split; [cbn; lia|].
    unfold statusSent. now destruct (send t).
  - pose proof (fetchLoop_sent_none fuel (Some anc) w1) as Hl.
    destruct (fetchLoop fuel t bc (Some anc) w1) as [[[u|e] w2] t2] eqn:Hrun;
      cbn [snd] in Hl.
    + rewrite (bind_inl _ _ _ _ _ _ Hrun), bind_call.
      set (h := fst (CurrentHeader bc w2)).
      destruct (sendSync_run t false (NumberU64 h) (NumberU64 (header t))
                  (snd (CurrentHeader bc w2))) as [w3 Hs].
      rewrite (bind_inl _ _ _ _ _ _ Hs).
      exists [h]. split; [cbn; lia|].
      cbn [snd bind leave sent]. rewrite sent_app, Hl. cbn [app sent].
      rewrite app_nil_r. unfold statusSent, statusOf.
      destruct (send t); reflexivity.
    + rewrite (bind_inr _ _ _ _ _ _ Hrun).
      exists []. split; [cbn; lia|].
      cbn [snd sent]. rewrite Hl. unfold statusSent. now destruct (send t).
Qed.

(** Without a sink, or with fewer than 100 blocks per request, all that
    [Run] sends is the start event and, if the loop ends, the end event. *)
Lemma Run_sent_shape fuel w :
  exists hs,
    (List.length hs <= 2)%nat /\
    sent (snd (Run fuel t bc w)) = statusSent t hs.
Proof.
  unfold Run, RunM. rewrite bind_call.
  destruct (fst (needSkip t bc w)).
  { exists []. split; [cbn; lia|].
    unfold statusSent. now destruct (send t). }
  rewrite bind_call.
  set (h0 := fst (CurrentHeader bc _)). set (w0 := snd (CurrentHeader bc _)).
  destruct (sendSync_run t false (NumberU64 h0) (NumberU64 (header t)) w0)
    as [w2 Hs].
  rewrite (bind_inl _ _ _ _ _ _ Hs), bind_call.
  assert (Hstart : sent (match send t with
                         | Some _ =>
                             [EvSend (mkSyncingResult false
                                (mkProgress (NumberU64 h0)
                                   (NumberU64 (header t))))]
                         | None => []
                         end) = statusSent t [h0]).
  { unfold statusSent, statusOf. now destruct (send t). }
  destruct (findAncestor t bc w2) as [[a [e|]] w3]; cbn [fst snd].
  - exists [h0]. split; [cbn; lia|].
    unfold leave. cbv beta iota. cbn [snd sent].
    rewrite sent_app, Hstart. cbn [sent]. now rewrite app_nil_r.
  - destruct a as [anc|].
    + destruct (syncFrom_sent fuel anc w3) as (hs & Hlen & Hsent).
      exists (h0 :: hs). split; [cbn; lia|].
      destruct (syncFrom fuel t bc anc w3) as [[[u|e] w4] t4];
        cbn [snd] in Hsent; cbv beta iota; cbn [snd sent];
        rewrite sent_app, Hstart; cbn [sent]; rewrite Hsent;
        apply (statusSent_app [h0] hs).
    + exists [h0]. split; [cbn; lia|].
      unfold leave. cbv beta iota. cbn [snd sent].
      rewrite sent_app, Hstart. cbn [sent]. now rewrite app_nil_r.
Qed.
End QuietLoops.

(** X15: a task without a sink sends no progress event at all, however
    [Run] ends and whatever the fuel. *)
Theorem Run_without_sink_is_silent {W} (fuel : nat) (t : task W)
    (bc : blockchain W) (w : W) :
  send t = None ->
  sent (snd (Run fuel t bc w)) = [].
Proof.
  intros Hnone.
  destruct (Run_sent_shape t bc (or_introl Hnone) fuel w) as (hs & _ & ->).
  unfold statusSent. now rewrite Hnone.
Qed.

Lemma Run_without_sink_is_silent_witness :
  sent (snd (Run 5 (Script.peerTask "root" 100 2 (Script.hdr 8) None)
               Script.chain Script.behind)) = [].
Proof.
  apply (Run_without_sink_is_silent 5
           (Script.peerTask "root" 100 2 (Script.hdr 8) None)
           Script.chain Script.behind).
  reflexivity.
Defined.

(** X16: a task whose [batchSize] is below 100 (as [MinorBlockBatchSize]
    is) never sends an event with syncing=true: no response that passes the
    length check reaches a count of 100.  All it sends is the start event
    and, if the loop ends, the end event: at most two events, both with
    syncing=false and the target's number as highest. *)
Theorem Run_small_batch_never_syncing {W} (fuel : nat) (t : task W)
    (bc : blockchain W) (w : W) :
  batchSize t < 100 ->
  Forall notSyncing (sent (snd (Run fuel t bc w))) /\
  Forall (fun r => HighestBlock (Status r) = NumberU64 (header t))
    (sent (snd (Run fuel t bc w))) /\
  (List.length (sent (snd (Run fuel t bc w))) <= 2)%nat.
Proof.
  intros Hsmall.
  destruct (Run_sent_shape t bc (or_intror Hsmall) fuel w) as (hs & Hlen & ->).
  unfold statusSent. destruct (send t).
  - split; [|split].
    + apply Forall_map. apply Forall_forall. intros h _. reflexivity.
    + apply Forall_map. apply Forall_forall. intros h _. reflexivity.
    + now rewrite length_map.
  - split; [constructor|]. split; [constructor|]. cbn. lia.
Qed.

Lemma Run_small_batch_never_syncing_witness :
  Forall notSyncing
    (sent (snd (Run 3 (Script.bulkTask MinorBlockBatchSize 100) Script.chain
                  (Script.long 100)))) /\
  Forall (fun r => HighestBlock (Status r)
                   = NumberU64 (header (Script.bulkTask MinorBlockBatchSize 100)))
    (sent (snd (Run 3 (Script.bulkTask MinorBlockBatchSize 100) Script.chain
                  (Script.long 100)))) /\
  (List.length
     (sent (snd (Run 3 (Script.bulkTask MinorBlockBatchSize 100) Script.chain
                   (Script.long 100)))) <= 2)%nat.
Proof.
  apply (Run_small_batch_never_syncing 3
           (Script.bulkTask MinorBlockBatchSize 100) Script.chain
           (Script.long 100)).
  vm_compute. reflexivity.
Defined.

(** ** When the loop of [Run] ends *)

Lemma last_None_inv {A B} (f : A -> option B) (l : list A) (d : B) :
  last (map f l) (Some d) = None ->
  exists pre b, l = pre ++ [b] /\ f b = None.
Proof.
  intros H.
  assert (Hne : l <> []).
  { intros ->. discriminate H. }
  destruct (exists_last Hne) as (pre & b & ->).
  rewrite map_app, last_app_default in H. cbn in H. eauto.
Qed.

Section LoopEnd.
Context {W : Type}.
Variables (t : task W) (bc : blockchain W).

(** The loop ends normally only with a nil ancestor, and the ancestor is
    the header of the last block given to [AddBlock]. *)
Lemma fetchLoop_normal fuel a w u w' tr :
  fetchLoop fuel t bc a w = (inl u, w', tr) ->
  last (map bHeader (added tr)) a = None.
Proof.
  revert a w w' tr. induction fuel as [|fuel IH]; intros a w w' tr H.
  - destruct a; [discriminate H|]. cbn in H. now inversion H.
  - destruct a as [anc|]; [|cbn in H; now inversion H].
    cbn [fetchLoop] in H. rewrite bind_call in H.
    destruct (getHeaders t anc w) as [[B [e|]] w1]; cbn [fst snd] in H;
      [discriminate H|].
    destruct (len B =? 0); [discriminate H|].
    unfold validateHeaderList in H.
    destruct (validateFrom_events bc None B w1) as (v & w2 & k & Hv).
    rewrite (bind_inl _ _ _ _ _ _ Hv) in H.
    destruct (sealEvents_quiet (firstn k B)) as (_ & _ & Hs).
    destruct v as [e|]; [discriminate H|].
    destruct (commitLoop (S fuel) t bc (map Hash B) (Some anc) w2)
      as [[[a1|e] w3] t3] eqn:Hrun.
    + rewrite (bind_inl _ _ _ _ _ _ Hrun) in H.
      apply commitLoop_normal in Hrun.
      destruct (fetchLoop fuel t bc a1 w3) as [[r w4] t4] eqn:Hrec.
      inversion H; subst r w4 tr.
      apply IH in Hrec.
      cbn [added]. rewrite added_app, Hs. cbn [app].
      rewrite added_app, map_app, last_app_default, <- Hrun. exact Hrec.
    + rewrite (bind_inr _ _ _ _ _ _ Hrun) in H. discriminate H.
Qed.
End LoopEnd.

Section LoopEvents.
Context {W : Type}.
Variables (t : task W) (bc : blockchain W).

Lemma commitBlocks_sent_syncing blocks todo c a w :
  Forall isSyncing (sent (snd (commitBlocks t bc blocks todo c a w))).
Proof.
  revert c a w. induction todo as [|b rest IH]; intros c a w.
  - constructor.
  - rewrite commitBlocks_cons.
    destruct (hookOutcome_quiet t bc b w) as (_ & _ & Hs1).
    destruct (hookOutcome t bc b w) as [[[e|] w1] t1]; cbn [snd] in Hs1.
    { cbn [snd]. rewrite Hs1. constructor. }
    destruct (fst (AddBlock bc b w1)) as [e|].
    { cbn [snd]. rewrite sent_app, Hs1. constructor. }
    cbv zeta.
    assert (Hs3 : Forall isSyncing
                    (sent (snd (progressStep t blocks b c
                                  (snd (AddBlock bc b w1)))))).
    { destruct (progressStep_run t blocks b c (snd (AddBlock bc b w1)))
        as [w3 ->]. cbn [snd].
      destruct (Z.rem (c + 1) 100 =? 0); [|constructor].
      destruct (send t); repeat constructor. }
    set (s := progressStep t blocks b c (snd (AddBlock bc b w1))) in *.
    specialize (IH (c + 1) (bHeader b) (snd (fst s))).
    destruct (commitBlocks t bc blocks rest (c + 1) (bHeader b) (snd (fst s)))
      as [[r w4] t4].
    cbn [snd] in *. rewrite sent_app, Hs1. cbn [app sent].
    rewrite sent_app. apply Forall_app. split; assumption.
Qed.

Lemma commitLoop_sent_syncing fuel hashlist a w :
  Forall isSyncing (sent (snd (commitLoop fuel t bc hashlist a w))).
Proof.
  revert hashlist a w.
  induction fuel as [|fuel IH]; intros hashlist a w.
  - destruct hashlist; constructor.
  - destruct hashlist as [|x l].
    { rewrite commitLoop_nil. constructor. }
    destruct (Z_lt_le_dec (batchSize t) 0) as [Hneg|Hbs].
    { rewrite commitLoop_negative by (assumption || discriminate).
      constructor. }
    rewrite commitLoop_step by (assumption || discriminate). cbv zeta.
    destruct (getBlocks t (requested t (x :: l)) w) as [[blocks [e|]] w1];
      cbn [fst snd]; [constructor|].
    destruct (len blocks =? len (requested t (x :: l))); [|constructor].
    pose proof (commitBlocks_sent_syncing blocks blocks 0 a w1) as Hc.
    destruct (commitBlocks t bc blocks blocks 0 a w1) as [[[a1|e] w2] t2] eqn:Hrun;
      cbn [snd] in Hc.
    + rewrite (bind_inl _ _ _ _ _ _ Hrun).
      specialize (IH (remaining t (x :: l)) a1 w2).
      destruct (commitLoop fuel t bc (remaining t (x :: l)) a1 w2)
        as [[r w3] t3].
      cbn [snd] in IH. cbn [snd sent]. rewrite sent_app.
      apply Forall_app. split; assumption.
    + rewrite (bind_inr _ _ _ _ _ _ Hrun). exact Hc.
Qed.

(** Every progress event sent inside the loop of [Run] says
    syncing=true. *)
Lemma fetchLoop_sent_syncing fuel a w :
  Forall isSyncing (sent (snd (fetchLoop fuel t bc a w))).
Proof.
  revert a w. induction fuel as [|fuel IH]; intros a w.
  - destruct a; constructor.
  - destruct a as [anc|]; [|constructor].
    cbn [fetchLoop]. rewrite bind_call.
    destruct (getHeaders t anc w) as [[B [e|]] w1]; cbn [fst snd];
      [constructor|].
    destruct (len B =? 0); [constructor|].
    unfold validateHeaderList.
    destruct (validateFrom_events bc None B w1) as (v & w2 & k & Hv).
    rewrite (bind_inl _ _ _ _ _ _ Hv).
    pose proof (sealEvents_sent (firstn k B)) as Hs.
    destruct v as [e|].
    { cbn. rewrite app_nil_r, Hs. constructor. }
    pose proof (commitLoop_sent_syncing (S fuel) (map Hash B) (Some anc) w2)
      as Hc.
    destruct (commitLoop (S fuel) t bc (map Hash B) (Some anc) w2)
      as [[[a1|e] w3] t3] eqn:Hrun; cbn [snd] in Hc.
    + rewrite (bind_inl _ _ _ _ _ _ Hrun).
      specialize (IH a1 w3).
      destruct (fetchLoop fuel t bc a1 w3) as [[r w4] t4].
      cbn [snd] in IH. cbn [snd sent].
      rewrite sent_app, Hs, sent_app. cbn [app].
      apply Forall_app. split; assumption.
    + rewrite (bind_inr _ _ _ _ _ _ Hrun).
      cbn [snd sent]. rewrite sent_app, Hs. exact Hc.
Qed.

(** What [Run] does once its loop has ended. *)
Lemma Run_after_loop fuel w w1 w2 anc cur tr1 tr2 :
  prologue t bc w = (inl (anc, cur), w1, tr1) ->
  u64_sub (NumberU64 cur) (NumberU64 anc) <= u64 (maxSyncStaleness t) ->
  fetchLoop fuel t bc (Some anc) w1 = (inl tt, w2, tr2) ->
  exists w3,
    Run fuel t bc w
    = (Return None, w3,
       tr1 ++ tr2 ++ EvCurrentHeader
       :: endEvents t (fst (CurrentHeader bc w2))).
Proof.
  intros Hp Hfresh Hloop.
  rewrite (Run_gate t bc _ _ _ _ _ Hp), gate_fresh by exact Hfresh.
  rewrite (bind_inl _ _ _ _ _ _ Hloop), bind_call.
  set (h := fst (CurrentHeader bc w2)). set (w2' := snd (CurrentHeader bc w2)).
  destruct (sendSync_run t false (NumberU64 h) (NumberU64 (header t)) w2')
    as [w3 Hs].
  rewrite (bind_inl _ _ _ _ _ _ Hs). cbn.
  exists w3. unfold endEvents. rewrite app_nil_r. reflexivity.
Qed.
End LoopEvents.

(** X14: past the staleness gate the start event is the only event sent
    so far, every event sent inside the loop says syncing=true, and [Run]
    ends in one of two ways.  Either it leaves from inside its loop: its
    log is then the loop's log and nothing is sent after it, so no end
    event.  Or the loop has ended: then at least one block was given to
    [AddBlock], the last of them answers [IHeader()] with nil, and [Run]
    reads the head and sends the end event.  The end event is therefore
    sent only after such a block. *)
Theorem Run_end_event_needs_nil_header {W} (fuel : nat) (t : task W)
    (bc : blockchain W) (w w1 : W) (anc cur : IHeader) (tr1 : list Event) :
  prologue t bc w = (inl (anc, cur), w1, tr1) ->
  u64_sub (NumberU64 cur) (NumberU64 anc) <= u64 (maxSyncStaleness t) ->
  sent tr1 = statusSent t [fst (CurrentHeader bc (snd (needSkip t bc w)))] /\
  ((exists e w2 tr2,
      fetchLoop fuel t bc (Some anc) w1 = (inr e, w2, tr2) /\
      Run fuel t bc w = (e, w2, tr1 ++ tr2) /\
      Forall isSyncing (sent tr2)) \/
   (exists w2 tr2 pre b w3,
      fetchLoop fuel t bc (Some anc) w1 = (inl tt, w2, tr2) /\
      added tr2 = pre ++ [b] /\
      bHeader b = None /\
      Forall isSyncing (sent tr2) /\
      Run fuel t bc w
      = (Return None, w3,
         tr1 ++ tr2 ++ EvCurrentHeader
         :: endEvents t (fst (CurrentHeader bc w2))))).
Proof.
  intros Hp Hfresh. split.
  - apply prologue_events in Hp as [_ ->].
    unfold startEvents, statusSent, statusOf. destruct (send t); reflexivity.
  - pose proof (fetchLoop_sent_syncing t bc fuel (Some anc) w1) as Hsync.
    destruct (fetchLoop fuel t bc (Some anc) w1) as [[[[]|e] w2] tr2] eqn:Hloop;
      cbn [snd] in Hsync.
    + right. apply fetchLoop_normal in Hloop as Hlast.
      apply last_None_inv in Hlast as (pre & b & Hadd & Hb).
      destruct (Run_after_loop t bc fuel w w1 w2 anc cur tr1 tr2 Hp Hfresh Hloop)
        as [w3 Hrun].
      exists w2, tr2, pre, b, w3. auto.
    + left. exists e, w2, tr2. split; [reflexivity|]. split; [|exact Hsync].
      rewrite (Run_gate t bc _ _ _ _ _ Hp), gate_fresh by exact Hfresh.
      rewrite (bind_inr _ _ _ _ _ _ Hloop). reflexivity.
Qed.

Lemma Run_end_event_needs_nil_header_witness :
  sent [EvNeedSkip; EvCurrentHeader;
        EvSend (mkSyncingResult false (mkProgress 5 8));
        EvFindAncestor; EvCurrentHeader]
  = statusSent Script.shardTask [Script.hdr 5] /\
  ((exists e w2 tr2,
      fetchLoop 3 Script.shardTask Script.chain (Some (Script.hdr 5))
        Script.behind = (inr e, w2, tr2) /\
      Run 3 Script.shardTask Script.chain Script.behind
      = (e, w2,
         [EvNeedSkip; EvCurrentHeader;
          EvSend (mkSyncingResult false (mkProgress 5 8));
          EvFindAncestor; EvCurrentHeader] ++ tr2) /\
      Forall isSyncing (sent tr2)) \/
   (exists w2 tr2 pre b w3,
      fetchLoop 3 Script.shardTask Script.chain (Some (Script.hdr 5))
        Script.behind = (inl tt, w2, tr2) /\
      added tr2 = pre ++ [b] /\
      bHeader b = None /\
      Forall isSyncing (sent tr2) /\
      Run 3 Script.shardTask Script.chain Script.behind
      = (Return None, w3,
         [EvNeedSkip; EvCurrentHeader;
          EvSend (mkSyncingResult false (mkProgress 5 8));
          EvFindAncestor; EvCurrentHeader]
         ++ tr2 ++ EvCurrentHeader
         :: endEvents Script.shardTask
              (fst (CurrentHeader Script.chain w2))))).
Proof.
  apply (Run_end_event_needs_nil_header 3 Script.shardTask Script.chain
           Script.behind Script.behind (Script.hdr 5) (Script.hdr 5)).
  - reflexivity.
  - vm_compute. discriminate.
Defined.

(** ** A sequence of [SetSendFunc] calls *)

Section SinkSequence.
Context {W : Type}.
Implicit Types (t : task W) (fs : list (option (SyncingResult -> W -> Z * W))).

Lemma SetSendFunc_frame t f :
  name (SetSendFunc t f) = name t /\
  maxSyncStaleness (SetSendFunc t f) = maxSyncStaleness t /\
  batchSize (SetSendFunc t f) = batchSize t /\
  header (SetSendFunc t f) = header t /\
  findAncestor (SetSendFunc t f) = findAncestor t /\
  getHeaders (SetSendFunc t f) = getHeaders t /\
  getBlocks (SetSendFunc t f) = getBlocks t /\
  syncBlock (SetSendFunc t f) = syncBlock t /\
  needSkip (SetSendFunc t f) = needSkip t.
Proof.
  unfold SetSendFunc. destruct (_ && _)%bool; repeat split.
Qed.

Lemma SetSendFunc_send t f :
  send (SetSendFunc t f) =
  match send t with
  | Some s => Some s
  | None => if String.prefix "shard-" (name t) then f else None
  end.
Proof.
  unfold SetSendFunc.
  destruct (String.prefix "shard-" (name t)); destruct (send t) as [s|] eqn:Hs;
    cbn; try rewrite Hs; reflexivity.
Qed.

Lemma fold_SetSendFunc fs t :
  name (fold_left SetSendFunc fs t) = name t /\
  send (fold_left SetSendFunc fs t) =
  match send t with
  | Some s => Some s
  | None => if String.prefix "shard-" (name t) then firstAttached fs else None
  end.
Proof.
  revert t. induction fs as [|f fs IH]; intros t.
  - cbn. split; [reflexivity|].
    destruct (send t); [reflexivity|].
    now destruct (String.prefix "shard-" (name t)).
  - cbn [fold_left firstAttached].
    destruct (IH (SetSendFunc t f)) as [Hn Hs].
    destruct (SetSendFunc_frame t f) as (Hname & _).
    rewrite Hn, Hs, Hname, SetSendFunc_send. split; [reflexivity|].
    destruct (send t) as [s|]; [reflexivity|].
    destruct (String.prefix "shard-" (name t)); [|reflexivity].
    destruct f; reflexivity.
Qed.
End SinkSequence.

(** X17: after any sequence of [SetSendFunc] calls the task keeps the sink
    it had, or else, if its name starts with "shard-", holds the first
    non-nil sink of the sequence (a nil argument does not use up the
    slot), or else has none; nothing but the sink is ever changed. *)
Theorem SetSendFunc_sequence {W} (t : task W)
    (fs : list (option (SyncingResult -> W -> Z * W))) :
  send (fold_left SetSendFunc fs t) =
  match send t with
  | Some s => Some s
  | None => if String.prefix "shard-" (name t) then firstAttached fs else None
  end /\
  name (fold_left SetSendFunc fs t) = name t /\
  maxSyncStaleness (fold_left SetSendFunc fs t) = maxSyncStaleness t /\
  batchSize (fold_left SetSendFunc fs t) = batchSize t /\
  header (fold_left SetSendFunc fs t) = header t /\
  findAncestor (fold_left SetSendFunc fs t) = findAncestor t /\
  getHeaders (fold_left SetSendFunc fs t) = getHeaders t /\
  getBlocks (fold_left SetSendFunc fs t) = getBlocks t /\
  syncBlock (fold_left SetSendFunc fs t) = syncBlock t /\
  needSkip (fold_left SetSendFunc fs t) = needSkip t.
Proof.
  split; [apply fold_SetSendFunc|].
  revert t. induction fs as [|f fs IH]; intros t.
  - repeat split.
  - cbn [fold_left].
    destruct (IH (SetSendFunc t f)) as (H1 & H2 & H3 & H4 & H5 & H6 & H7 & H8 & H9).
    destruct (SetSendFunc_frame t f)
      as (F1 & F2 & F3 & F4 & F5 & F6 & F7 & F8 & F9).
    rewrite H1, H2, H3, H4, H5, H6, H7, H8, H9.
    repeat split; assumption.
Qed.

(** * The loop over a response, block by block *)

Section Through.
Context {W : Type}.
Variables (t : task W) (bc : blockchain W).

Lemma hookOutcome_log b w : snd (hookOutcome t bc b w) = hookLog t b.
Proof. unfold hookOutcome, hookLog. now destruct (syncBlock t). Qed.

Lemma progressStep_log blocks b (i : nat) w :
  snd (progressStep t blocks b (Z.of_nat i) w) = progressAt t blocks i b.
Proof.
  destruct (progressStep_run t blocks b (Z.of_nat i) w) as [w' ->].
  cbn [snd]. unfold progressAt.
  rewrite Z.rem_mod_nonneg by lia.
  replace (Z.of_nat i + 1) with (Z.of_nat (S i)) by lia. reflexivity.
Qed.

Lemma hookOutcome_passes b l w :
  commitsPass t bc (b :: l) -> fst (fst (hookOutcome t bc b w)) = None.
Proof.
  intros Hok. unfold hookOutcome.
  destruct (syncBlock t) as [hook|] eqn:Hs; [|reflexivity].
  cbn. apply (proj2 Hok hook b w Hs). now left.
Qed.

(** On blocks that commit the loop does what [passThrough] says and goes
    on with the blocks after them. *)
Lemma commitBlocks_through blocks pre post (i : nat) a w :
  commitsPass t bc pre ->
  commitBlocks t bc blocks (pre ++ post) (Z.of_nat i) a w =
  match passThrough t bc blocks i pre a w with
  | (a1, w1, t1) =>
      match commitBlocks t bc blocks post
              (Z.of_nat (i + List.length pre)) a1 w1 with
      | (r, w2, t2) => (r, w2, t1 ++ t2)
      end
  end.
Proof.
  revert i a w. induction pre as [|b pre IH]; intros i a w Hok.
  - cbn [app passThrough List.length]. rewrite Nat.add_0_r.
    destruct (commitBlocks t bc blocks post (Z.of_nat i) a w) as [[r w2] t2].
    reflexivity.
  - cbn [app passThrough]. rewrite commitBlocks_cons.
    pose proof (hookOutcome_passes b pre w Hok) as Hh.
    pose proof (hookOutcome_log b w) as Hl.
    destruct (hookOutcome t bc b w) as [[ho w1] t1].
    cbn [fst snd] in *. subst ho t1.
    rewrite (proj1 Hok b w1 (or_introl eq_refl)). cbv zeta.
    rewrite progressStep_log.
    set (w3 := snd (fst (progressStep t blocks b (Z.of_nat i)
                           (snd (AddBlock bc b w1))))).
    replace (Z.of_nat i + 1) with (Z.of_nat (S i)) by lia.
    rewrite (IH (S i) (bHeader b) w3 (commitsPass_tail t bc _ _ Hok)).
    destruct (passThrough t bc blocks (S i) pre (bHeader b) w3)
      as [[a1 w4] t4].
    replace (i + List.length (b :: pre))%nat with (S i + List.length pre)%nat
      by (cbn [List.length]; lia).
    destruct (commitBlocks t bc blocks post
                (Z.of_nat (S i + List.length pre)) a1 w4) as [[r w5] t5].
    rewrite <- !app_assoc. cbn [app]. now rewrite <- !app_assoc.
Qed.

Lemma hookLog_quiet b :
  added (hookLog t b) = [] /\ sent (hookLog t b) = [].
Proof. unfold hookLog. destruct (syncBlock t); split; reflexivity. Qed.

Lemma progressAt_quiet blocks i b : added (progressAt t blocks i b) = [].
Proof.
  unfold progressAt. destruct (_ =? _); [|reflexivity].
  destruct (send t); reflexivity.
Qed.

Lemma passThrough_added blocks i l a w :
  added (snd (passThrough t bc blocks i l a w)) = l.
Proof.
  revert i a w. induction l as [|b l IH]; intros i a w; [reflexivity|].
  cbn [passThrough]. cbv zeta.
  specialize (IH (S i) (bHeader b)
    (snd (fst (progressStep t blocks b (Z.of_nat i)
                 (snd (AddBlock bc b (snd (fst (hookOutcome t bc b w))))))))).
  destruct (passThrough t bc blocks (S i) l (bHeader b) _) as [[a' w'] tr].
  cbn [snd] in *.
  rewrite added_app, (proj1 (hookLog_quiet b)). cbn [app added].
  now rewrite added_app, progressAt_quiet, IH.
Qed.



End Through.

Section OneTurn.
Context {W : Type}.
Variables (t : task W) (bc : blockchain W).

(** A turn whose response has the right length hands it to the loop over
    its blocks, the count starting at 0. *)
Lemma commitLoop_right_length fuel hashlist a w w1 blocks :
  hashlist <> [] ->
  0 <= batchSize t ->
  getBlocks t (requested t hashlist) w = ((blocks, None), w1) ->
  len blocks = len (requested t hashlist) ->
  commitLoop (S fuel) t bc hashlist a w =
  match commitBlocks t bc blocks blocks 0 a w1 with
  | (inl a', w2, t2) =>
      match commitLoop fuel t bc (remaining t hashlist) a' w2 with
      | (x, w3, t3) => (x, w3, EvGetBlocks (requested t hashlist) :: t2 ++ t3)
      end
  | (inr e, w2, t2) => (inr e, w2, EvGetBlocks (requested t hashlist) :: t2)
  end.
Proof.
  intros Hne Hbs Hget Hlen.
  rewrite commitLoop_step by assumption. cbv zeta. rewrite Hget.
  cbn [fst snd]. rewrite Hlen, Z.eqb_refl.
  destruct (commitBlocks t bc blocks blocks 0 a w1) as [[[a'|e] w2] t2] eqn:Hrun.
  - rewrite (bind_inl _ _ _ _ _ _ Hrun).
    destruct (commitLoop fuel t bc (remaining t hashlist) a' w2)
      as [[x w3] t3]. reflexivity.
  - rewrite (bind_inr _ _ _ _ _ _ Hrun). reflexivity.
Qed.

(** The loop over the whole response, split at the blocks that commit. *)
Lemma commitBlocks_split blocks pre post a w :
  blocks = pre ++ post ->
  commitsPass t bc pre ->
  commitBlocks t bc blocks blocks 0 a w =
  match passThrough t bc blocks 0 pre a w with
  | (a1, w1, t1) =>
      match commitBlocks t bc blocks post (Z.of_nat (List.length pre)) a1 w1 with
      | (r, w2, t2) => (r, w2, t1 ++ t2)
      end
  end.
Proof.
  intros Hsplit Hok.
  rewrite Hsplit at 2.
  change 0 with (Z.of_nat 0) at 1.
  now rewrite commitBlocks_through.
Qed.
End OneTurn.






(** * A batch as a whole *)

Section WholeBatch.
Context {W : Type}.
Variables (t : task W) (bc : blockchain W).

Lemma requested_nonempty hashlist :
  0 < batchSize t -> hashlist <> [] -> requested t hashlist <> [].
Proof.
  intros Hbs Hne Hreq.
  pose proof (len_requested t hashlist (Z.lt_le_incl _ _ Hbs)) as Hlen.
  pose proof (len_pos hashlist Hne).
  rewrite Hreq in Hlen. unfold len in Hlen at 1. cbn in Hlen. lia.
Qed.

(** With a peer that answers in full and blocks that commit, the inner
    loop requests every hash and adds a block for each. *)
Lemma commitLoop_all fuel hashlist a w :
  0 < batchSize t ->
  answersInFull t ->
  allCommitsPass t bc ->
  (List.length hashlist <= fuel)%nat ->
  exists a' w' tr,
    commitLoop fuel t bc hashlist a w = (inl a', w', tr) /\
    List.concat (requests tr) = hashlist /\
    len (added tr) = len hashlist.
Proof.
  intros Hbs Hfull Hpass. revert hashlist a w.
  induction fuel as [|fuel IH]; intros hashlist a w Hfuel.
  - destruct hashlist; [|cbn in Hfuel; lia].
    exists a, w, []. repeat split.
  - destruct hashlist as [|x l].
    { rewrite commitLoop_nil. exists a, w, []. repeat split. }
    set (hashlist := x :: l) in *.
    assert (Hne : hashlist <> []) by discriminate.
    pose proof (requested_remaining t hashlist (Z.lt_le_incl _ _ Hbs)) as Hsplit.
    destruct (Hfull (requested t hashlist) w) as [Herr Hlen].
    destruct (getBlocks t (requested t hashlist) w) as [[blocks e] w1] eqn:Hget.
    cbn [fst snd] in *. subst e.
    rewrite (commitLoop_right_length t bc fuel hashlist a w w1 blocks
               Hne (Z.lt_le_incl _ _ Hbs) Hget Hlen).
    rewrite (commitBlocks_split t bc blocks blocks [] a w1
               (eq_sym (app_nil_r blocks)) (Hpass blocks)).
    pose proof (passThrough_added t bc blocks 0 blocks a w1) as Hadd.
    destruct (passThrough t bc blocks 0 blocks a w1) as [[a1 w2] t1] eqn:HP.
    cbn [snd] in Hadd. cbn [commitBlocks ret].
    destruct (commitBlocks_normal t bc blocks blocks 0 a w1) as (_ & Hr1 & _).
    rewrite (commitBlocks_split t bc blocks blocks [] a w1
               (eq_sym (app_nil_r blocks)) (Hpass blocks)), HP in Hr1.
    cbn [commitBlocks ret snd] in Hr1.
    assert (Hshort : (List.length (remaining t hashlist) <= fuel)%nat).
    { pose proof (remaining_shorter t hashlist Hbs Hne). lia. }
    destruct (IH (remaining t hashlist) a1 w2 Hshort)
      as (a' & w' & tr3 & -> & Hcat & Hadd3).
    exists a', w', (EvGetBlocks (requested t hashlist) :: (t1 ++ []) ++ tr3).
    split; [reflexivity|]. split.
    + cbn [requests]. rewrite requests_app, Hr1. cbn [app List.concat].
      now rewrite Hcat.
    + cbn [added]. rewrite added_app, app_nil_r, Hadd, len_app, Hadd3, Hlen.
      rewrite <- Hsplit at 3. now rewrite len_app.
Qed.
End WholeBatch.

(** C1 (amended): the validator starts with no predecessor, so the first
    header of a batch is checked by the seal validator only and never
    against the ancestor: for a one-header batch the verdict is the seal
    validator's, and any batch that is linked within itself and whose seals
    pass is accepted whatever the ancestor is, [Run] going on to its first
    block request.  With a positive [batchSize] that request is not empty,
    and with a peer that answers in full and blocks that commit, every
    hash of the batch is requested and a block is added for each. *)
Theorem first_header_not_linked_to_ancestor {W} (fuel : nat) (t : task W)
    (bc : blockchain W) (anc : IHeader) (B : list IHeader) (w w1 : W) :
  getHeaders t anc w = ((B, None), w1) ->
  B <> [] ->
  linked B ->
  (forall h w0, In h B -> fst (ValidateSeal bc h false w0) = None) ->
  0 <= batchSize t ->
  (forall h w0,
     validateHeaderList t bc [h] w0
     = (inl (fst (ValidateSeal bc h false w0)),
        snd (ValidateSeal bc h false w0), [EvValidateSeal h false])) /\
  exists w2,
    validateHeaderList t bc B w1 = (inl None, w2, sealEvents B) /\
    (exists r w3 tr3,
       fetchLoop (S fuel) t bc (Some anc) w
       = (r, w3,
          EvGetHeaders anc
          :: sealEvents B ++ EvGetBlocks (requested t (map Hash B)) :: tr3)) /\
    (0 < batchSize t ->
     requested t (map Hash B) <> [] /\
     (answersInFull t ->
      allCommitsPass t bc ->
      (List.length B <= S fuel)%nat ->
      exists a' w3 t3 r w4 t4,
        commitLoop (S fuel) t bc (map Hash B) (Some anc) w2
        = (inl a', w3, t3) /\
        List.concat (requests t3) = map Hash B /\
        len (added t3) = len B /\
        fetchLoop (S fuel) t bc (Some anc) w
        = (r, w4, EvGetHeaders anc :: sealEvents B ++ t3 ++ t4))).
Proof.
  intros Hget Hne HB Hseal Hbs. split.
  - intros h w0. unfold validateHeaderList. cbn [validateFrom].
    rewrite bind_call. destruct (fst (ValidateSeal bc h false w0)); reflexivity.
  - destruct (validateFrom_pass bc None B w1 HB Hseal) as [w2 Hv].
    exists w2. split; [exact Hv|]. split.
    + now apply fetchLoop_accepted with (w1 := w1) (w2 := w2).
    + intros Hpos.
      assert (HneH : map Hash B <> []).
      { destruct B; [contradiction|discriminate]. }
      split; [now apply requested_nonempty|].
      intros Hfull Hpass Hfuel.
      destruct (commitLoop_all t bc (S fuel) (map Hash B) (Some anc) w2
                  Hpos Hfull Hpass) as (a' & w3 & t3 & Hrun & Hcat & Hadd).
      { now rewrite length_map. }
      destruct (fetchLoop fuel t bc a' w3) as [[r w4] t4] eqn:Hrec.
      exists a', w3, t3, r, w4, t4.
      split; [exact Hrun|]. split; [exact Hcat|]. split.
      * rewrite Hadd. unfold len. now rewrite length_map.
      * cbn [fetchLoop]. rewrite bind_call, Hget. cbn [fst snd].
        destruct B as [|h B]; [contradiction|].
        change (len (h :: B) =? 0) with false. cbv iota.
        change (validateHeaderList t bc (h :: B) w1)
          with (validateFrom bc None (h :: B) w1).
        rewrite (bind_inl _ _ _ _ _ _ Hv), (bind_inl _ _ _ _ _ _ Hrun), Hrec.
        reflexivity.
Qed.

Lemma first_header_not_linked_to_ancestor_witness :
  exists a' w3 t3 r w4 t4,
    commitLoop 2 (Peer.honestTask "shard-1" 100 2 (Script.hdr 10) None)
      Script.chain (map Hash [Script.hdr 9; Script.hdr 10])
      (Some (Script.hdr 5))
      (snd (getHeaders Script.shardTask (Script.hdr 5) Script.detached))
    = (inl a', w3, t3) /\
    List.concat (requests t3) = map Hash [Script.hdr 9; Script.hdr 10] /\
    len (added t3) = len [Script.hdr 9; Script.hdr 10] /\
    fetchLoop 2 (Peer.honestTask "shard-1" 100 2 (Script.hdr 10) None)
      Script.chain (Some (Script.hdr 5)) Script.detached
    = (r, w4,
       EvGetHeaders (Script.hdr 5)
       :: sealEvents [Script.hdr 9; Script.hdr 10] ++ t3 ++ t4).
Proof.
  destruct (first_header_not_linked_to_ancestor 1
              (Peer.honestTask "shard-1" 100 2 (Script.hdr 10) None)
              Script.chain (Script.hdr 5) [Script.hdr 9; Script.hdr 10]
              Script.detached
              (snd (getHeaders Script.shardTask (Script.hdr 5) Script.detached)))
    as (_ & w2 & Hv & _ & Hall).
  - reflexivity.
  - discriminate.
  - apply linked_cons. split; [split; reflexivity|apply linked_one].
  - intros h w0 _. reflexivity.
  - cbn. lia.
  - assert (Hw : w2 = snd (getHeaders Script.shardTask (Script.hdr 5)
                              Script.detached)).
    { vm_compute in Hv. now inversion Hv. }
    subst w2. destruct Hall as [_ Hall]; [cbn; lia|].
    apply Hall.
    + intros hs w0. split; [reflexivity|].
      cbn. unfold len. now rewrite length_map.
    + intros l. split.
      * intros b w0 _. reflexivity.
      * intros hook b w0 Hh. discriminate Hh.
    + cbn. lia.
Defined.

(** * The verdict on a header batch *)

(** C6 (amended): a batch the validator accepts has every adjacent pair
    contiguous (in [uint64] arithmetic) and linked, and the seal validator
    was called, with strictness off, on every header of it.  A batch that
    breaks contiguity or linkage is rejected with an error; [Run] returns
    that error having fetched no block and called [AddBlock] for none.
    The error is a protocol violation whenever the headers before the
    first broken pair are linked and pass the seal check (the seal
    validator is then not called on the offending header or after it); if
    instead the seal validator refuses a header before any break, its
    error is the verdict, unchanged. *)
Theorem validateHeaderList_verdict {W} (t : task W) (bc : blockchain W)
    (B : list IHeader) (w w' : W) (r : option error + exit) (tr : list Event) :
  validateHeaderList t bc B w = (r, w', tr) ->
  exists v,
    r = inl v /\
    (v = None -> linked B /\ tr = sealEvents B) /\
    (~ linked B ->
     exists e,
       v = Some e /\
       ((forall h w0, In h B -> fst (ValidateSeal bc h false w0) = None) ->
        protocolViolation e = true) /\
       existsb isFetch tr = false /\
       added tr = [] /\
       forall fuel anc w0,
         getHeaders t anc w0 = ((B, None), w) ->
         fetchLoop (S fuel) t bc (Some anc) w0
         = (inr (Return (Some e)), w', EvGetHeaders anc :: tr)) /\
    (forall pre p h post,
       B = pre ++ p :: h :: post ->
       linked (pre ++ [p]) ->
       sealsPass bc (pre ++ [p]) ->
       ~ extends p h ->
       v = Some (linkError p h) /\
       protocolViolation (linkError p h) = true /\
       tr = sealEvents (pre ++ [p])) /\
    (forall pre h post e,
       B = pre ++ h :: post ->
       linked (pre ++ [h]) ->
       sealsPass bc pre ->
       (forall w0, fst (ValidateSeal bc h false w0) = Some e) ->
       v = Some e /\ tr = sealEvents (pre ++ [h])).
Proof.
  unfold validateHeaderList. intros Hv.
  destruct (validateFrom_events bc None B w) as (v & w1 & k & Hk).
  rewrite Hk in Hv. inversion Hv; subst r w1 tr; clear Hv.
  exists v. split; [reflexivity|]. split; [|split; [|split]].
  - intros ->. apply validateFrom_accept in Hk as H. exact H.
  - intros Hn. destruct v as [e|].
    + exists e. split; [reflexivity|].
      destruct (sealEvents_quiet (firstn k B)) as (Hf & _ & Ha).
      split; [|split; [exact Hf|split; [exact Ha|]]].
      * intros Hseal. eapply validateFrom_own_error; eauto.
      * intros fuel anc w0 Hget.
        now apply fetchLoop_rejected with (B := B) (w1 := w).
    + exfalso. apply Hn. now apply validateFrom_accept in Hk as [H _].
  - intros pre p h post -> HB Hseal Hx.
    destruct (validateFrom_link_error bc pre p h post (linkError p h) None w
                HB Hseal (checkLink_error p h Hx)) as [w2 Hl].
    rewrite Hl in Hk. inversion Hk as [[Hv Hw Htr]].
    split; [reflexivity|]. split; [|now rewrite Htr].
    unfold linkError. now destruct (_ =? _).
  - intros pre h post e -> HB Hseal He.
    destruct (validateFrom_seal_error bc pre h post e None w HB Hseal He)
      as [w2 Hl].
    rewrite Hl in Hk. inversion Hk as [[Hv Hw Htr]].
    split; [reflexivity|now rewrite Htr].
Qed.

Lemma validateHeaderList_verdict_witness :
  fetchLoop 1 Script.shardTask Script.chain (Some (Script.hdr 5)) Script.gap
  = (inr (Return (Some ErrDescendingOrder)),
     snd (getHeaders Script.shardTask (Script.hdr 5) Script.gap),
     [EvGetHeaders (Script.hdr 5);
      EvValidateSeal (Script.hdr 6) false;
      EvValidateSeal (Script.hdr 7) false]) /\
  fst (fst (validateHeaderList Script.shardTask (Script.chainWith [9] [])
              ([Script.hdr 6] ++ Script.hdr 7 :: Script.hdr 9 :: [])
              Script.gap))
  = inl (Some (linkError (Script.hdr 7) (Script.hdr 9))) /\
  fst (fst (validateHeaderList Script.shardTask (Script.chainWith [6] [])
              ([] ++ Script.hdr 6 :: [Script.hdr 9]) Script.gap))
  = inl (Some (ErrExternal "bad seal")).
Proof.
  split; [|split].
  - destruct (validateHeaderList_verdict Script.shardTask Script.chain
                [Script.hdr 6; Script.hdr 7; Script.hdr 9]
                (snd (getHeaders Script.shardTask (Script.hdr 5) Script.gap))
                (snd (getHeaders Script.shardTask (Script.hdr 5) Script.gap))
                (inl (Some ErrDescendingOrder))
                [EvValidateSeal (Script.hdr 6) false;
                 EvValidateSeal (Script.hdr 7) false]
                eq_refl) as (v & Hv & _ & Hrej & _).
    destruct Hrej as (e & He & _ & _ & _ & Hrun).
    + intros H. destruct (H 1%nat (Script.hdr 7) (Script.hdr 9) eq_refl eq_refl)
        as [Hn _]. discriminate Hn.
    + assert (e = ErrDescendingOrder) as -> by congruence.
      apply Hrun. reflexivity.
  - destruct (validateHeaderList Script.shardTask (Script.chainWith [9] [])
                ([Script.hdr 6] ++ Script.hdr 7 :: Script.hdr 9 :: [])
                Script.gap) as [[r w'] tr] eqn:Hrun.
    destruct (validateHeaderList_verdict _ _ _ _ _ _ _ Hrun)
      as (v & -> & _ & _ & Hlink & _).
    destruct (Hlink [Script.hdr 6] (Script.hdr 7) (Script.hdr 9) [])
      as (-> & _ & _).
    + reflexivity.
    + apply linked_cons. split; [split; reflexivity|apply linked_one].
    + intros h w0 [<-|[<-|[]]]; reflexivity.
    + intros [Hn _]. discriminate Hn.
    + reflexivity.
  - destruct (validateHeaderList Script.shardTask (Script.chainWith [6] [])
                ([] ++ Script.hdr 6 :: [Script.hdr 9]) Script.gap)
      as [[r w'] tr] eqn:Hrun.
    destruct (validateHeaderList_verdict _ _ _ _ _ _ _ Hrun)
      as (v & -> & _ & _ & _ & Hseal).
    destruct (Hseal [] (Script.hdr 6) [Script.hdr 9] (ErrExternal "bad seal"))
      as (-> & _).
    + reflexivity.
    + apply linked_one.
    + intros h w0 [].
    + intros w0. reflexivity.
    + reflexivity.
Defined.
